(** * youtube_subscriptions.py: fetch, categorize and render subscriptions

    A shallow embedding of [src/youtube_subscriptions.py] and of the pieces
    of the Python runtime it calls ([str] methods, [sorted],
    [urllib.parse.urlparse], [urllib.parse.unquote]), followed by the
    properties of the pipeline.

    Conventions.
    - A Python [str] is a list of Unicode code points ([N]).
    - A Python [dict] is an association list in insertion order with
      unique keys.
    - A call that may raise returns a [result].
    - [urllib.parse] is the one of CPython 3.11: [urlsplit] strips leading
      C0 controls and spaces, removes tabs and newlines, and checks the
      brackets of the host. *)

From Stdlib Require Import String Ascii DecimalString.
From Stdlib Require Import List NArith Arith Lia Bool.
From Stdlib Require Import Permutation Sorted.
Import ListNotations.

Set Implicit Arguments.

(** ** Python values *)

Definition char := N.
Definition str := list char.

(** An ASCII literal of the source, as a [str]. *)
Definition py (s : string) : str :=
  List.map N_of_ascii (list_ascii_of_string s).
Arguments py s%_string.

(** The code point of a one-character ASCII literal. *)
Definition ord (s : string) : char :=
  match s with
  | String a _ => N_of_ascii a
  | EmptyString => 0%N
  end.
Arguments ord s%_string.

Definition LF : char := 10%N.
Definition TAB : char := 9%N.
Definition CR : char := 13%N.
(** U+2014, the dash of the rendered lines. *)
Definition EM_DASH : char := 8212%N.
(** U+FFFD, what the [replace] error handler of a codec puts. *)
Definition REPLACEMENT : char := 65533%N.

(** Exceptions the program meets: [ValueError] comes from [urlparse] and,
    as [UnicodeEncodeError], from encoding a text; [HttpError] from the API
    client, [SystemExit] from [main], [OSError] from the file system and
    the console. *)
Inductive exn :=
| ValueError
| HttpError (msg : str)
| SystemExit (msg : str)
| OSError (msg : str).

Inductive result (A : Type) :=
| Ok (a : A)
| Raise (e : exn).
Arguments Ok {A} a.
Arguments Raise {A} e.

Definition bind {A B} (r : result A) (k : A -> result B) : result B :=
  match r with
  | Ok a => k a
  | Raise e => Raise e
  end.

Notation "x <- r ;; k" := (bind r (fun x => k))
  (at level 61, r at next level, right associativity).

(** ** [str] methods *)

Section StrMethods.
Local Open Scope N_scope.

Fixpoint str_eqb (a b : str) : bool :=
  match a, b with
  | [], [] => true
  | x :: a', y :: b' => (x =? y) && str_eqb a' b'
  | _, _ => false
  end.

(** [a < b] on [str]: code point by code point, a proper prefix first. *)
Fixpoint str_ltb (a b : str) : bool :=
  match a, b with
  | _, [] => false
  | [], _ :: _ => true
  | x :: a', y :: b' =>
      if x <? y then true
      else if y <? x then false
      else str_ltb a' b'
  end.

(** [c in s] for a one-character [c]. *)
Definition contains (c : char) (s : str) : bool := existsb (N.eqb c) s.

Definition isascii (c : char) : bool := c <? 128.

(** [c.isspace()]: the code points Unicode classes as white space. *)
Definition isspace (c : char) : bool :=
  ((9 <=? c) && (c <=? 13)) || ((28 <=? c) && (c <=? 32))
  || (c =? 133) || (c =? 160) || (c =? 5760)
  || ((8192 <=? c) && (c <=? 8202))
  || (c =? 8232) || (c =? 8233) || (c =? 8239) || (c =? 8287)
  || (c =? 12288).

(** [s.lstrip(chars)] and [s.rstrip(chars)], [chars] as a predicate. *)
Fixpoint lstrip_chars (chars : char -> bool) (s : str) : str :=
  match s with
  | [] => []
  | c :: s' => if chars c then lstrip_chars chars s' else s
  end.

Definition rstrip_chars (chars : char -> bool) (s : str) : str :=
  rev (lstrip_chars chars (rev s)).

(** [s.strip()] *)
Definition strip (s : str) : str :=
  rstrip_chars isspace (lstrip_chars isspace s).

(** [s.replace(old, new)] for a one-character [old]. *)
Definition replace (old : char) (new : str) (s : str) : str :=
  flat_map (fun c => if c =? old then new else [c]) s.

(** [s.partition(sep)] when [sep] occurs in [s]: what stands before its
    first occurrence and what stands after it. *)
Fixpoint partition (sep : char) (s : str) : option (str * str) :=
  match s with
  | [] => None
  | c :: s' =>
      if c =? sep then Some ([], s')
      else match partition sep s' with
           | Some (before, after) => Some (c :: before, after)
           | None => None
           end
  end.

(** The same around the last occurrence of [sep]. *)
Definition rpartition (sep : char) (s : str) : option (str * str) :=
  match partition sep (rev s) with
  | Some (after, before) => Some (rev before, rev after)
  | None => None
  end.

(** [s.rsplit(sep, maxsplit=1)] *)
Definition rsplit1 (sep : char) (s : str) : list str :=
  match rpartition sep s with
  | Some (before, after) => [before; after]
  | None => [s]
  end.

(** [s.split(sep)] *)
Fixpoint split (sep : char) (s : str) : list str :=
  match s with
  | [] => [[]]
  | c :: s' =>
      if c =? sep then [] :: split sep s'
      else match split sep s' with
           | piece :: pieces => (c :: piece) :: pieces
           | [] => [[c]]
           end
  end.

(** [sep.join(pieces)] *)
Fixpoint join (sep : str) (pieces : list str) : str :=
  match pieces with
  | [] => []
  | piece :: rest =>
      match rest with
      | [] => piece
      | _ => piece ++ sep ++ join sep rest
      end
  end.

(** [s.lower()] on a [str] of ASCII letters, digits and signs. *)
Definition ascii_lower (c : char) : char :=
  if (65 <=? c) && (c <=? 90) then c + 32 else c.

End StrMethods.

(** ** [sorted] *)

Section Sorted.
Variable A : Type.
Variable key : A -> str.

(** [x] goes in front of the first element whose key is not below its own:
    elements with equal keys keep their order. *)
Fixpoint insert_by (x : A) (l : list A) : list A :=
  match l with
  | [] => [x]
  | y :: l' => if str_ltb (key y) (key x) then y :: insert_by x l' else x :: l
  end.

(** [sorted(l, key=key)]: the stable sort of [l] by [key]. *)
Definition sorted_by (l : list A) : list A := fold_right insert_by [] l.
End Sorted.

(** [sorted(l)] on a list of [str]. *)
Definition sorted (l : list str) : list str := sorted_by (fun s => s) l.

(** ** [dict] *)

Section Dict.
Variable V : Type.

Definition dict := list (str * V).

(** [d.get(k)] *)
Fixpoint dict_get (d : dict) (k : str) : option V :=
  match d with
  | [] => None
  | (k', v) :: d' => if str_eqb k' k then Some v else dict_get d' k
  end.

(** [d[k] = v]: a key already there keeps its place. *)
Fixpoint dict_set (d : dict) (k : str) (v : V) : dict :=
  match d with
  | [] => [(k, v)]
  | (k', v') :: d' =>
      if str_eqb k' k then (k', v) :: d' else (k', v') :: dict_set d' k v
  end.

Definition dict_keys (d : dict) : list str := List.map fst d.
Definition dict_values (d : dict) : list V := List.map snd d.
End Dict.

(** [d[k].append(x)] on a [defaultdict(list)]: a missing key starts from
    the empty list. *)
Definition defaultdict_append {A} (d : dict (list A)) (k : str) (x : A)
  : dict (list A) :=
  dict_set d k (match dict_get d k with
                | Some l => l ++ [x]
                | None => [x]
                end).

(** [d[k]] on a [defaultdict(list)], read only. *)
Definition defaultdict_item {A} (d : dict (list A)) (k : str) : list A :=
  match dict_get d k with
  | Some l => l
  | None => []
  end.

(** ** [_chunked] *)

Section Chunked.
Variable A : Type.

(** The [for] loop of [_chunked]: [chunk] is the list being filled, the
    result is the sequence of yielded chunks, the final [if chunk] included. *)
Fixpoint chunked_loop (size : nat) (chunk : list A) (iterable : list A)
  : list (list A) :=
  match iterable with
  | [] => match chunk with [] => [] | _ => [chunk] end
  | item :: rest =>
      let chunk := chunk ++ [item] in
      if length chunk =? size
      then chunk :: chunked_loop size [] rest
      else chunked_loop size chunk rest
  end.

Definition _chunked (iterable : list A) (size : nat) : list (list A) :=
  chunked_loop size [] iterable.
End Chunked.

(** ** What the model takes from the Python runtime as given

    Three library functions rest on tables or modules far from this
    program (the Unicode database, the [ipaddress] module), and whether
    the file system and the console take what is written to them is not
    for the program to say; the model takes them as they come. *)
Record Runtime := {
  (** [unicodedata.normalize('NFKC', s)] *)
  nfkc : str -> str;
  (** whether [urllib.parse._check_bracketed_netloc(netloc)] returns (it
      raises [ValueError] otherwise); called on a [netloc] that holds both
      brackets *)
  check_bracketed_netloc : str -> bool;
  (** [s.lower()] *)
  lower : str -> str;
  (** what opening the file at a path for writing raises (a missing
      directory, a refused permission), if anything; the file is then not
      touched *)
  open_error : str -> option exn;
  (** what writing a text to the opened file at a path raises (a full
      disk), if anything *)
  write_error : str -> str -> option exn;
  (** what [print] raises on a line, if anything *)
  print_error : str -> option exn
}.

(** ** [urllib.parse.urlparse] *)

Section Urlparse.
Local Open Scope N_scope.
Variable rt : Runtime.

Record SplitResult := {
  split_scheme : str;
  split_netloc : str;
  split_path : str;
  split_query : str;
  split_fragment : str
}.

Record ParseResult := {
  scheme : str;
  netloc : str;
  path : str;
  params : str;
  query : str;
  fragment : str
}.

(** [_WHATWG_C0_CONTROL_OR_SPACE] *)
Definition c0_control_or_space (c : char) : bool := c <=? 32.

(** [c.isascii() and c.isalpha()] *)
Definition isascii_alpha (c : char) : bool :=
  ((65 <=? c) && (c <=? 90)) || ((97 <=? c) && (c <=? 122)).

(** [c in scheme_chars] *)
Definition scheme_char (c : char) : bool :=
  isascii_alpha c || ((48 <=? c) && (c <=? 57))
  || (c =? ord "+") || (c =? ord "-") || (c =? ord ".").

Definition uses_params : list str :=
  [py ""; py "ftp"; py "hdl"; py "prospero"; py "http"; py "imap";
   py "https"; py "shttp"; py "rtsp"; py "rtspu"; py "sip"; py "sips";
   py "mms"; py "sftp"; py "tel"].

(** The scheme, when [url] starts with one, and what follows its colon. *)
Definition take_scheme (url : str) : str * str :=
  match partition (ord ":") url with
  | Some (c :: before, after) =>
      if isascii_alpha c && forallb scheme_char (c :: before)
      then (List.map ascii_lower (c :: before), after)
      else ([], url)
  | _ => ([], url)
  end.

(** Up to the first character that [stop] holds of, and from it on. *)
Fixpoint span_until (stop : char -> bool) (s : str) : str * str :=
  match s with
  | [] => ([], [])
  | c :: s' =>
      if stop c then ([], s)
      else let (before, rest) := span_until stop s' in (c :: before, rest)
  end.

(** [_splitnetloc(url, 2)] *)
Definition _splitnetloc (url : str) : str * str :=
  span_until (fun c => (c =? ord "/") || (c =? ord "?") || (c =? ord "#"))
             (skipn 2 url).

Definition _checknetloc (netloc : str) : result unit :=
  if match netloc with [] => true | _ => forallb isascii netloc end
  then Ok tt
  else
    let n := replace (ord "@") [] netloc in
    let n := replace (ord ":") [] n in
    let n := replace (ord "#") [] n in
    let n := replace (ord "?") [] n in
    let netloc2 := nfkc rt n in
    if str_eqb n netloc2 then Ok tt
    else if existsb (fun c => contains c netloc2) (py "/?#@:")
         then Raise ValueError
         else Ok tt.

(** The brackets of a [netloc], as [urlsplit] checks them. *)
Definition check_brackets (netloc : str) : result unit :=
  let opening := contains (ord "[") netloc in
  let closing := contains (ord "]") netloc in
  if (opening && negb closing) || (closing && negb opening)
  then Raise ValueError
  else if opening && closing
       then if check_bracketed_netloc rt netloc then Ok tt
            else Raise ValueError
       else Ok tt.

Definition urlsplit (url : str) : result SplitResult :=
  let url := lstrip_chars c0_control_or_space url in
  let url := replace TAB [] url in
  let url := replace CR [] url in
  let url := replace LF [] url in
  let (scheme, url) := take_scheme url in
  located <-
    (if str_eqb (firstn 2 url) (py "//")
     then
       let (netloc, url) := _splitnetloc url in
       _ <- check_brackets netloc ;;
       Ok (netloc, url)
     else Ok ([], url)) ;;
  let (netloc, url) := located : str * str in
  let (url, fragment) :=
    match partition (ord "#") url with
    | Some (url, fragment) => (url, fragment)
    | None => (url, [])
    end in
  let (url, query) :=
    match partition (ord "?") url with
    | Some (url, query) => (url, query)
    | None => (url, [])
    end in
  _ <- _checknetloc netloc ;;
  Ok {| split_scheme := scheme; split_netloc := netloc; split_path := url;
        split_query := query; split_fragment := fragment |}.

(** Called on a [url] that holds a [;]. *)
Definition _splitparams (url : str) : str * str :=
  match rpartition (ord "/") url with
  | Some (before, after) =>
      match partition (ord ";") after with
      | Some (segment, params) =>
          (before ++ [ord "/"] ++ segment, params)
      | None => (url, [])
      end
  | None =>
      match partition (ord ";") url with
      | Some (before, params) => (before, params)
      | None => (removelast url, url)
      end
  end.

Definition urlparse (url : str) : result ParseResult :=
  splitresult <- urlsplit url ;;
  let url := split_path splitresult in
  let (url, params) :=
    if existsb (str_eqb (split_scheme splitresult)) uses_params
       && contains (ord ";") url
    then _splitparams url
    else (url, []) in
  Ok {| scheme := split_scheme splitresult;
        netloc := split_netloc splitresult;
        path := url; params := params;
        query := split_query splitresult;
        fragment := split_fragment splitresult |}.
End Urlparse.

(** ** [urllib.parse.unquote] *)

Section Unquote.
Local Open Scope N_scope.

(** The value of a character of [_hexdig]. *)
Definition hexval (c : char) : option N :=
  if (48 <=? c) && (c <=? 57) then Some (c - 48)
  else if (65 <=? c) && (c <=? 70) then Some (c - 55)
  else if (97 <=? c) && (c <=? 102) then Some (c - 87)
  else None.

(** One item of [bits[1:]] in [unquote_to_bytes]: the byte of its two
    leading hex digits and the rest, or the [%] put back. *)
Definition unquote_item (item : list N) : list N :=
  match item with
  | h :: l :: rest =>
      match hexval h, hexval l with
      | Some a, Some b => (16 * a + b) :: rest
      | _, _ => ord "%" :: item
      end
  | _ => ord "%" :: item
  end.

(** [unquote_to_bytes(string)] on a [str] of ASCII characters, which
    [encode('utf-8')] turns into the bytes of the same values. *)
Definition unquote_to_bytes (string : str) : list N :=
  match string with
  | [] => []
  | _ =>
      match split (ord "%") string with
      | [] => string
      | [_] => string
      | first :: items => first ++ flat_map unquote_item items
      end
  end.

Definition continuation (b : N) : bool := (128 <=? b) && (b <? 192).

(** [bytes.decode('utf-8', 'replace')]: CPython's decoder, which puts one
    U+FFFD for an invalid start byte, for the bytes of a sequence up to
    the first one that cannot continue it, and for a sequence the input
    ends within. *)
Fixpoint utf8_decode (bs : list N) : str :=
  match bs with
  | [] => []
  | b0 :: t0 =>
      if b0 <? 128 then b0 :: utf8_decode t0
      else if b0 <? 194 then REPLACEMENT :: utf8_decode t0
      else if b0 <? 224 then
        match t0 with
        | [] => [REPLACEMENT]
        | b1 :: t1 =>
            if continuation b1
            then (b0 - 192) * 64 + (b1 - 128) :: utf8_decode t1
            else REPLACEMENT :: utf8_decode t0
        end
      else if b0 <? 240 then
        match t0 with
        | [] => [REPLACEMENT]
        | b1 :: t1 =>
            if negb (continuation b1)
               || (if b1 <? 160 then b0 =? 224 else b0 =? 237)
            then REPLACEMENT :: utf8_decode t0
            else
              match t1 with
              | [] => [REPLACEMENT]
              | b2 :: t2 =>
                  if continuation b2
                  then (b0 - 224) * 4096 + (b1 - 128) * 64 + (b2 - 128)
                       :: utf8_decode t2
                  else REPLACEMENT :: utf8_decode t1
              end
        end
      else if b0 <? 245 then
        match t0 with
        | [] => [REPLACEMENT]
        | b1 :: t1 =>
            if negb (continuation b1)
               || (if b1 <? 144 then b0 =? 240 else b0 =? 244)
            then REPLACEMENT :: utf8_decode t0
            else
              match t1 with
              | [] => [REPLACEMENT]
              | b2 :: t2 =>
                  if negb (continuation b2)
                  then REPLACEMENT :: utf8_decode t1
                  else
                    match t2 with
                    | [] => [REPLACEMENT]
                    | b3 :: t3 =>
                        if continuation b3
                        then (b0 - 240) * 262144 + (b1 - 128) * 4096
                             + (b2 - 128) * 64 + (b3 - 128)
                             :: utf8_decode t3
                        else REPLACEMENT :: utf8_decode t2
                    end
              end
        end
      else REPLACEMENT :: utf8_decode t0
  end.

(** The loop of [unquote] over [_asciire.split(string)]: [run] is the
    stretch of ASCII characters read so far; a stretch is unquoted to
    bytes and decoded, the other characters stay. *)
Fixpoint unquote_bits (run : str) (string : str) : str :=
  match string with
  | [] => utf8_decode (unquote_to_bytes run)
  | c :: rest =>
      if isascii c then unquote_bits (run ++ [c]) rest
      else utf8_decode (unquote_to_bytes run) ++ c :: unquote_bits [] rest
  end.

Definition unquote (string : str) : str :=
  if negb (contains (ord "%") string) then string
  else unquote_bits [] string.
End Unquote.

(** ** The program *)

Record Subscription := {
  channel_id : str;
  title : str;
  description : str;
  channel_url : str
}.

(** *** The API client

    A response is a JSON object: a field that may be missing is an
    [option].  Executing a request raises or returns a response; for a page
    of subscriptions [next_request] is what [list_next(request, response)]
    then returns. *)

Record ResourceId := { channelId : option str }.

Record Snippet := {
  snippet_title : option str;
  snippet_description : option str;
  snippet_resourceId : option ResourceId
}.

Record SubscriptionItem := { item_snippet : option Snippet }.

#[local] Unset Elimination Schemes.
Inductive SubscriptionsRequest :=
| SubscriptionsPage
    (execute : result (option (list SubscriptionItem)
                       * option SubscriptionsRequest)).

#[local] Set Elimination Schemes.

Record TopicDetails := { topicCategories : option (list str) }.

Record ChannelItem := {
  item_id : option str;
  item_topicDetails : option TopicDetails
}.

Record Youtube := {
  (** [youtube.subscriptions().list(part="snippet", mine=True, ...)] *)
  subscriptions_list : SubscriptionsRequest;
  (** [youtube.channels().list(part=..., id=ids, maxResults=50).execute()],
      the field [items] of the response *)
  channels_list_execute : str -> result (option (list ChannelItem))
}.

Definition or_default {A} (o : option A) (default : A) : A :=
  match o with
  | Some a => a
  | None => default
  end.

(** The body of [for item in response.get("items", [])] in
    [fetch_subscriptions]. *)
Definition subscription_of_item (item : SubscriptionItem)
  : option Subscription :=
  let snippet :=
    or_default (item_snippet item)
      {| snippet_title := None; snippet_description := None;
         snippet_resourceId := None |} in
  let resource_id :=
    or_default (snippet_resourceId snippet) {| channelId := None |} in
  match channelId resource_id with
  | None => None
  | Some [] => None
  | Some channel_id =>
      Some {| channel_id := channel_id;
              title := or_default (snippet_title snippet) [];
              description := or_default (snippet_description snippet) [];
              channel_url :=
                py "https://www.youtube.com/channel/" ++ channel_id |}
  end.

Fixpoint append_items (subscriptions : list Subscription)
  (items : list SubscriptionItem) : list Subscription :=
  match items with
  | [] => subscriptions
  | item :: items' =>
      match subscription_of_item item with
      | Some s => append_items (subscriptions ++ [s]) items'
      | None => append_items subscriptions items'
      end
  end.

(** The [while request is not None] loop. *)
Fixpoint fetch_subscriptions_loop (request : SubscriptionsRequest)
  (subscriptions : list Subscription) : result (list Subscription) :=
  match request with
  | SubscriptionsPage (Raise e) => Raise e
  | SubscriptionsPage (Ok (items, next_request)) =>
      let subscriptions := append_items subscriptions (or_default items []) in
      match next_request with
      | Some request' => fetch_subscriptions_loop request' subscriptions
      | None => Ok subscriptions
      end
  end.

Definition fetch_subscriptions (youtube : Youtube)
  : result (list Subscription) :=
  fetch_subscriptions_loop (subscriptions_list youtube) [].

(** The body of [for item in response.get("items", [])] in
    [fetch_channel_topics]. *)
Definition record_topics (topics : dict (list str)) (item : ChannelItem)
  : dict (list str) :=
  match item_id item with
  | None => topics
  | Some [] => topics
  | Some channel_id =>
      let topic_details :=
        or_default (item_topicDetails item) {| topicCategories := None |} in
      dict_set topics channel_id
               (or_default (topicCategories topic_details) [])
  end.

Fixpoint fetch_channel_topics_loop (youtube : Youtube)
  (batches : list (list str)) (topics : dict (list str))
  : result (dict (list str)) :=
  match batches with
  | [] => Ok topics
  | batch :: batches' =>
      items <- channels_list_execute youtube (join (py ",") batch) ;;
      fetch_channel_topics_loop youtube batches'
        (fold_left record_topics (or_default items []) topics)
  end.

Definition fetch_channel_topics (youtube : Youtube) (channel_ids : list str)
  : result (dict (list str)) :=
  fetch_channel_topics_loop youtube (_chunked channel_ids 50) [].

(** *** Categorizer *)

Section Categorizer.
Variable rt : Runtime.

Definition readable_topic (topic_url : str) : result str :=
  parsed <- urlparse rt topic_url ;;
  let label := last (rsplit1 (ord "/") (path parsed)) [] in
  let label := replace (ord "_") (py " ") label in
  Ok (unquote (match label with
               | [] => py "Uncategorized"
               | _ => label
               end)).

(** The genre of one subscription, as the loop body computes it. *)
Definition genre_of (topics : dict (list str)) (subscription : Subscription)
  : result str :=
  match dict_get topics (channel_id subscription) with
  | Some (first :: _) => readable_topic first
  | _ => Ok (py "Uncategorized")
  end.

Fixpoint categorize_loop (subscriptions : list Subscription)
  (topics : dict (list str)) (grouped : dict (list Subscription))
  : result (dict (list Subscription)) :=
  match subscriptions with
  | [] => Ok grouped
  | subscription :: rest =>
      genre <- genre_of topics subscription ;;
      categorize_loop rest topics
                      (defaultdict_append grouped genre subscription)
  end.

Definition categorize_subscriptions (subscriptions : list Subscription)
  (topics : dict (list str)) : result (dict (list Subscription)) :=
  categorize_loop subscriptions topics [].
End Categorizer.

(** *** Renderer *)

Section Renderer.
Variable rt : Runtime.

(** The line of one subscription. *)
Definition render_subscription (subscription : Subscription) : str :=
  let description :=
    replace LF (py " ") (strip (description subscription)) in
  match description with
  | [] =>
      py "- [" ++ title subscription ++ py "]("
         ++ channel_url subscription ++ py ")"
  | _ =>
      py "- [" ++ title subscription ++ py "]("
         ++ channel_url subscription ++ py ") " ++ [EM_DASH] ++ py " "
         ++ description
  end.

(** The body of [for genre in sorted(grouped)]. *)
Definition render_genre (grouped : dict (list Subscription))
  (lines : list str) (genre : str) : list str :=
  let lines := lines ++ [py "## " ++ genre] in
  let lines := lines ++ [[]] in
  let lines :=
    fold_left (fun lines subscription =>
                 lines ++ [render_subscription subscription])
              (sorted_by (fun s => lower rt (title s))
                         (defaultdict_item grouped genre))
              lines in
  lines ++ [[]].

Definition render_lines (grouped : dict (list Subscription)) : list str :=
  fold_left (render_genre grouped) (sorted (dict_keys grouped))
            [py "# YouTube Subscriptions by Genre"; []].

Definition render_markdown (grouped : dict (list Subscription)) : str :=
  strip (join [LF] (render_lines grouped)) ++ [LF].
End Renderer.

(** *** Writer and [main] *)

(** What [main] does to the world: [WriteText] is a text written to a
    file as a whole; [WriteFailed] is a file that was opened for writing,
    which empties it, the write then failing: it is left empty or with a
    part of the text. *)
Inductive event :=
| WriteText (output_path : str) (data : str)
| WriteFailed (output_path : str)
| PrintLine (line : str).

(** A code point from U+D800 to U+DFFF, which UTF-8 does not encode. *)
Definition surrogate (c : char) : bool :=
  (N.leb 55296 c) && (N.leb c 57343).

(** [str(n)] *)
Definition str_of_nat (n : nat) : str :=
  py (DecimalString.NilEmpty.string_of_uint (Nat.to_uint n)).

(** [output_path.write_text(markdown, encoding="utf-8")]: the file is
    opened for writing, then the text is encoded and written. *)
Definition write_output (rt : Runtime) (markdown : str) (output_path : str)
  : list event * result unit :=
  match open_error rt output_path with
  | Some e => ([], Raise e)
  | None =>
      if existsb surrogate markdown
      then ([WriteFailed output_path], Raise ValueError)
      else match write_error rt output_path markdown with
           | Some e => ([WriteFailed output_path], Raise e)
           | None => ([WriteText output_path markdown], Ok tt)
           end
  end.

(** [main] from its [try] on, for the parsed [--output] path and the
    client that [build] returned: what it writes and prints, and how it
    ends. *)
Definition main (rt : Runtime) (output : str) (youtube : Youtube)
  : list event * result unit :=
  match (subscriptions <- fetch_subscriptions youtube ;;
         topics <- fetch_channel_topics youtube
                     (List.map channel_id subscriptions) ;;
         Ok (subscriptions, topics)) with
  | Raise (HttpError exc) =>
      ([], Raise (SystemExit (py "YouTube API request failed: " ++ exc)))
  | Raise e => ([], Raise e)
  | Ok (subscriptions, topics) =>
      match categorize_subscriptions rt subscriptions topics with
      | Raise e => ([], Raise e)
      | Ok grouped =>
          let markdown := render_markdown rt grouped in
          let (written, outcome) := write_output rt markdown output in
          match outcome with
          | Raise e => (written, Raise e)
          | Ok _ =>
              let line := py "Wrote " ++ str_of_nat (length subscriptions)
                             ++ py " subscriptions to " ++ output in
              match print_error rt line with
              | Some e => (written, Raise e)
              | None => (written ++ [PrintLine line], Ok tt)
              end
          end
      end
  end.

Unset Implicit Arguments.

(** * Notions used in the statements *)

(** Every chunk but the last one has exactly [size] elements. *)
Fixpoint full_but_last {A} (size : nat) (chunks : list (list A)) : Prop :=
  match chunks with
  | [] => True
  | c :: rest =>
      match rest with
      | [] => True
      | _ => length c = size /\ full_but_last size rest
      end
  end.

(** The sizes [_chunked] yields, computed on lengths alone: [filled] is
    the length of the chunk being filled, [n] the number of items left. *)
Fixpoint chunk_sizes (size filled n : nat) : list nat :=
  match n with
  | O => match filled with O => [] | _ => [filled] end
  | S n' =>
      if S filled =? size
      then S filled :: chunk_sizes size 0 n'
      else chunk_sizes size (S filled) n'
  end.

(** [x] may stand before [y] in a list sorted by [key]. *)
Definition key_le {A} (key : A -> str) (x y : A) : Prop :=
  str_ltb (key y) (key x) = false.

(** The elements of [l] whose key is [k], in the order of [l]. *)
Definition with_key {A} (key : A -> str) (k : str) (l : list A) : list A :=
  filter (fun x => str_eqb (key x) k) l.

(** The lines of one genre: its heading, a blank line, the lines of its
    subscriptions sorted by lowered title, a blank line. *)
Definition genre_section (rt : Runtime) (grouped : dict (list Subscription))
  (genre : str) : list str :=
  [py "## " ++ genre; []]
  ++ List.map render_subscription
       (sorted_by (fun s => lower rt (title s))
                  (defaultdict_item grouped genre))
  ++ [[]].

(** [c] is one of [_hexdig]. *)
Definition ishex (c : char) : bool :=
  match hexval c with
  | Some _ => true
  | None => false
  end.

Definition starts_with_hex_pair (s : str) : bool :=
  match s with
  | h :: l :: _ => ishex h && ishex l
  | _ => false
  end.

(** [s] holds a percent escape: a [%] followed by two hex digits. *)
Fixpoint has_escape (s : str) : bool :=
  match s with
  | [] => false
  | c :: rest =>
      (N.eqb c (ord "%") && starts_with_hex_pair rest) || has_escape rest
  end.

(** A runtime for the examples, right on ASCII strings and on bracket-free
    hosts: there NFKC changes nothing, [lower] lowers the letters A to Z,
    and [_check_bracketed_netloc] is not called.  Its files and its
    console take whatever is written. *)
Definition ascii_runtime : Runtime :=
  {| nfkc := fun s => s;
     check_bracketed_netloc := fun _ => true;
     lower := List.map ascii_lower;
     open_error := fun _ => None;
     write_error := fun _ _ => None;
     print_error := fun _ => None |}.

(** The three steps of label derivation, before the fallback: the final
    segment of the path of the URL, its underscores replaced by spaces,
    percent-decoded. *)
Definition decoded_segment (rt : Runtime) (topic_url : str) : result str :=
  parsed <- urlparse rt topic_url ;;
  Ok (unquote
        (List.map (fun c => if N.eqb c (ord "_") then ord " " else c)
                  (last (rsplit1 (ord "/") (path parsed)) []))).

(** The string that the three steps give for [topic_url] under every
    runtime. *)
Definition always_decodes_to (topic_url decoded : str) : Prop :=
  forall rt, decoded_segment rt topic_url = Ok decoded.

(** The label that every runtime derives from [topic_url]. *)
Definition derives_label (topic_url label : str) : Prop :=
  forall rt, readable_topic rt topic_url = Ok label.

(** The URL that every runtime rejects with a [ValueError]. *)
Definition always_rejected (topic_url : str) : Prop :=
  forall rt, readable_topic rt topic_url = Raise ValueError.

(** The subscription of the example of the specification. *)
Definition foo_channel : Subscription :=
  {| channel_id := py "C1";
     title := py "Foo Channel";
     description := py "Fun stuff" ++ [LF] ++ py "more";
     channel_url := py "https://www.youtube.com/channel/C1" |}.

(** The API item that [fetch_subscriptions] reads [foo_channel] from. *)
Definition foo_item : SubscriptionItem :=
  {| item_snippet :=
       Some {| snippet_title := Some (py "Foo Channel");
               snippet_description :=
                 Some (py "Fun stuff" ++ [LF] ++ py "more");
               snippet_resourceId :=
                 Some {| channelId := Some (py "C1") |} |} |}.

(** A client whose first page of subscriptions holds [foo_item] and whose
    second page fails with an [HttpError]. *)
Definition failing_midway : Youtube :=
  {| subscriptions_list :=
       SubscriptionsPage
         (Ok (Some [foo_item],
              Some (SubscriptionsPage
                      (Raise (HttpError (py "quotaExceeded"))))));
     channels_list_execute := fun _ => Ok (Some []) |}.

(** The subscriptions that [fetch_subscriptions] keeps of the items of a
    page: one for each item with a channel id that is not empty. *)
Definition kept_items (items : list SubscriptionItem) : list Subscription :=
  flat_map (fun item => match subscription_of_item item with
                        | Some s => [s]
                        | None => []
                        end) items.

(** The items of the pages that a request and the requests after it
    return, page by page, or what the first failing page raises. *)
Fixpoint all_pages (request : SubscriptionsRequest)
  : result (list (list SubscriptionItem)) :=
  match request with
  | SubscriptionsPage (Raise e) => Raise e
  | SubscriptionsPage (Ok (items, next_request)) =>
      match next_request with
      | Some request' =>
          pages <- all_pages request' ;;
          Ok (or_default items [] :: pages)
      | None => Ok [or_default items []]
      end
  end.

(** The topic list that [fetch_channel_topics] records for an item. *)
Definition item_topics (item : ChannelItem) : list str :=
  or_default
    (topicCategories
       (or_default (item_topicDetails item) {| topicCategories := None |}))
    [].

(** [subscription] has the genre [genre]. *)
Definition has_genre (rt : Runtime) (topics : dict (list str)) (genre : str)
  (subscription : Subscription) : bool :=
  match genre_of rt topics subscription with
  | Ok g => str_eqb g genre
  | Raise _ => false
  end.

(** A client with one page of subscriptions, [foo_item] and an item
    without a snippet, whose channels all have the topic list [urls]. *)
Definition one_page (urls : list str) : Youtube :=
  {| subscriptions_list :=
       SubscriptionsPage
         (Ok (Some [foo_item; {| item_snippet := None |}], None));
     channels_list_execute := fun _ =>
       Ok (Some [ {| item_id := Some (py "C1");
                     item_topicDetails :=
                       Some {| topicCategories := Some urls |} |} ]) |}.

(** * Properties *)

(** ** Strings and dictionaries *)

Lemma str_eqb_eq (a b : str) : str_eqb a b = true <-> a = b.
Proof.
  revert b; induction a as [|x a IH]; intros [|y b]; simpl;
    try (split; [discriminate | discriminate]); [tauto|].
  rewrite andb_true_iff, N.eqb_eq, IH.
  split; [intros [-> ->]; reflexivity | intros H; inversion H; auto].
Qed.

Lemma str_eqb_refl (a : str) : str_eqb a a = true.
Proof. now apply str_eqb_eq. Qed.

Lemma str_eqb_neq (a b : str) : str_eqb a b = false <-> a <> b.
Proof.
  rewrite <- str_eqb_eq. destruct (str_eqb a b); split; congruence.
Qed.

Lemma str_ltb_irrefl (a : str) : str_ltb a a = false.
Proof.
  induction a as [|x a IH]; simpl; auto.
  now rewrite N.ltb_irrefl.
Qed.

(** If [a] is not below [b] and [b] is not below [c], then [a] is not
    below [c]. *)
Lemma str_ltb_negtrans (a b c : str) :
  str_ltb a c = true -> str_ltb a b = true \/ str_ltb b c = true.
Proof.
  revert b c; induction a as [|x a IH]; intros [|y b] [|z c]; simpl; auto.
  destruct (N.ltb_spec x z), (N.ltb_spec x y), (N.ltb_spec y z),
    (N.ltb_spec z x), (N.ltb_spec y x), (N.ltb_spec z y);
    auto; lia.
Qed.

Lemma str_ltb_antisym (a b : str) :
  str_ltb a b = false -> str_ltb b a = false -> a = b.
Proof.
  revert b; induction a as [|x a IH]; intros [|y b]; simpl;
    auto; try discriminate.
  destruct (N.ltb_spec x y), (N.ltb_spec y x); try discriminate; try lia.
  intros Hab Hba. f_equal; [lia | auto].
Qed.

Lemma str_ltb_neq (a b : str) : str_ltb a b = true -> a <> b.
Proof. intros H ->. now rewrite str_ltb_irrefl in H. Qed.

Section DictFacts.
Variable V : Type.
Implicit Types (d : dict V) (k : str) (v : V).

Lemma dict_get_set_same d k v : dict_get (dict_set d k v) k = Some v.
Proof.
  induction d as [|[k' v'] d IH]; simpl.
  - now rewrite str_eqb_refl.
  - destruct (str_eqb k' k) eqn:E; simpl; now rewrite E.
Qed.

Lemma dict_get_set_other d k k' v :
  k' <> k -> dict_get (dict_set d k v) k' = dict_get d k'.
Proof.
  intros Hne. induction d as [|[k0 v0] d IH]; simpl.
  - apply str_eqb_neq in Hne.
    destruct (str_eqb k k') eqn:E; auto.
    apply str_eqb_eq in E. subst. now rewrite str_eqb_refl in Hne.
  - destruct (str_eqb k0 k) eqn:E; simpl.
    + apply str_eqb_eq in E; subst k0.
      destruct (str_eqb k k') eqn:E'; auto.
      apply str_eqb_eq in E'. congruence.
    + now rewrite IH.
Qed.

Lemma dict_get_In d k v : dict_get d k = Some v -> In (k, v) d.
Proof.
  induction d as [|[k' v'] d IH]; simpl; [discriminate|].
  destruct (str_eqb k' k) eqn:E.
  - apply str_eqb_eq in E. intros [= ->]. subst. now left.
  - auto.
Qed.

Lemma dict_get_None d k : dict_get d k = None <-> ~ In k (dict_keys d).
Proof.
  induction d as [|[k' v'] d IH]; simpl; [tauto|].
  destruct (str_eqb k' k) eqn:E.
  - apply str_eqb_eq in E. split; [discriminate | intros H; elim H; auto].
  - apply str_eqb_neq in E. rewrite IH. tauto.
Qed.

Lemma In_dict_get d k v :
  NoDup (dict_keys d) -> In (k, v) d -> dict_get d k = Some v.
Proof.
  induction d as [|[k' v'] d IH]; simpl; [tauto|].
  intros Hnd [H|H]; inversion Hnd as [|? ? Hnotin Hnd']; subst.
  - inversion H; subst. now rewrite str_eqb_refl.
  - destruct (str_eqb k' k) eqn:E; auto.
    apply str_eqb_eq in E; subst k'.
    elim Hnotin. change k with (fst (k, v)). now apply in_map.
Qed.

Lemma dict_keys_set_present d k v v0 :
  dict_get d k = Some v0 -> dict_keys (dict_set d k v) = dict_keys d.
Proof.
  induction d as [|[k' v'] d IH]; simpl; [discriminate|].
  destruct (str_eqb k' k) eqn:E; simpl; auto.
  intros H. now rewrite IH.
Qed.

Lemma dict_keys_set_absent d k v :
  dict_get d k = None -> dict_keys (dict_set d k v) = dict_keys d ++ [k].
Proof.
  induction d as [|[k' v'] d IH]; simpl; auto.
  destruct (str_eqb k' k) eqn:E; simpl; [discriminate|].
  intros H. now rewrite IH.
Qed.
End DictFacts.

(** ** [_chunked] *)

Section ChunkedFacts.
Variable A : Type.
Implicit Types (chunk it : list A).

Lemma length_snoc chunk (x : A) : length (chunk ++ [x]) = S (length chunk).
Proof. rewrite length_app; simpl; lia. Qed.

Lemma chunked_loop_concat size chunk it :
  concat (chunked_loop size chunk it) = chunk ++ it.
Proof.
  revert chunk; induction it as [|x it IH]; intros chunk; simpl.
  - destruct chunk; simpl; now rewrite ?app_nil_r.
  - destruct (length (chunk ++ [x]) =? size); simpl; rewrite IH;
      now rewrite <- app_assoc.
Qed.

Lemma chunked_loop_bounds size chunk it :
  length chunk < size ->
  Forall (fun c => 0 < length c <= size) (chunked_loop size chunk it).
Proof.
  revert chunk; induction it as [|x it IH]; intros chunk Hlt; simpl.
  - destruct chunk as [|c chunk]; constructor; simpl in *; auto; lia.
  - pose proof (length_snoc chunk x) as Hlen.
    destruct (Nat.eqb_spec (length (chunk ++ [x])) size) as [E|E].
    + constructor; [lia|]. apply IH; simpl; lia.
    + apply IH; lia.
Qed.

Lemma chunked_loop_full size chunk it :
  length chunk < size ->
  full_but_last size (chunked_loop size chunk it).
Proof.
  revert chunk; induction it as [|x it IH]; intros chunk Hlt; simpl.
  - destruct chunk; simpl; auto.
  - pose proof (length_snoc chunk x) as Hlen.
    destruct (Nat.eqb_spec (length (chunk ++ [x])) size) as [E|E].
    + assert (H0 : length (@nil A) < size) by (simpl; lia).
      specialize (IH [] H0).
      simpl. destruct (chunked_loop size [] it); auto.
    + apply IH; lia.
Qed.

Lemma chunked_loop_sizes size chunk it :
  List.map (@length A) (chunked_loop size chunk it)
  = chunk_sizes size (length chunk) (length it).
Proof.
  revert chunk; induction it as [|x it IH]; intros chunk.
  - destruct chunk; reflexivity.
  - pose proof (length_snoc chunk x) as Hlen.
    cbn [chunked_loop chunk_sizes Datatypes.length]. rewrite Hlen.
    destruct (S (length chunk) =? size).
    + cbn [List.map]. rewrite IH, Hlen. reflexivity.
    + rewrite IH, Hlen. reflexivity.
Qed.

Lemma full_but_last_snoc size (pre : list (list A)) last :
  full_but_last size (pre ++ [last]) ->
  Forall (fun c => length c = size) pre.
Proof.
  induction pre as [|c pre IH]; simpl; intros H; [constructor|].
  destruct (pre ++ [last]) eqn:E.
  - destruct pre; discriminate.
  - destruct H as [Hc Hr]. constructor; auto.
Qed.

(** C8: the batches of [_chunked ids 50] are consecutive pieces of [ids],
    each of 1 to 50 elements, all but the last of exactly 50; 120 IDs give
    batches of sizes 50, 50, 20. *)
Theorem chunked_batches_of_50 (ids : list A) :
  let batches := _chunked ids 50 in
  concat batches = ids /\
  Forall (fun b => 0 < length b <= 50) batches /\
  (forall pre last, batches = pre ++ [last] ->
                    Forall (fun b => length b = 50) pre) /\
  (length ids = 120 -> List.map (@length A) batches = [50; 50; 20]).
Proof.
  unfold _chunked; cbv zeta. repeat split.
  - apply chunked_loop_concat.
  - apply chunked_loop_bounds; simpl; lia.
  - intros pre last E. apply full_but_last_snoc with (last := last).
    rewrite <- E. apply chunked_loop_full; simpl; lia.
  - intros H. rewrite chunked_loop_sizes, H. reflexivity.
Qed.

End ChunkedFacts.

(** The batches [fetch_channel_topics] asks for when it is given the 120
    IDs [0], [1], ..., [119] (each a one-character [str]). *)
Lemma chunked_120_ids :
  let ids := List.map (fun n => [N.of_nat n]) (seq 0 120) in
  List.map (@length str) (_chunked ids 50) = [50; 50; 20].
Proof.
  cbv zeta.
  apply (chunked_batches_of_50 str
           (List.map (fun n => [N.of_nat n]) (seq 0 120))).
  reflexivity.
Defined.

(** ** [sorted] *)

Lemma str_ltb_asym (a b : str) : str_ltb a b = true -> str_ltb b a = false.
Proof.
  revert b; induction a as [|x a IH]; intros [|y b]; simpl;
    auto; try discriminate.
  destruct (N.ltb_spec x y), (N.ltb_spec y x);
    auto; try discriminate; lia.
Qed.

Section SortedFacts.
Variable A : Type.
Variable key : A -> str.
Implicit Types (x y : A) (l : list A).

Lemma key_le_trans x y z : key_le key x y -> key_le key y z -> key_le key x z.
Proof.
  unfold key_le; intros Hxy Hyz.
  destruct (str_ltb (key z) (key x)) eqn:E; auto.
  destruct (str_ltb_negtrans _ (key y) _ E); congruence.
Qed.

Lemma insert_by_perm x l : Permutation (insert_by key x l) (x :: l).
Proof.
  induction l as [|y l IH]; simpl; auto.
  destruct (str_ltb (key y) (key x)); auto.
  rewrite IH. apply perm_swap.
Qed.

Lemma sorted_by_perm l : Permutation (sorted_by key l) l.
Proof.
  induction l as [|x l IH]; simpl; auto.
  rewrite insert_by_perm. now constructor.
Qed.

Lemma insert_by_sorted x l :
  StronglySorted (key_le key) l ->
  StronglySorted (key_le key) (insert_by key x l).
Proof.
  induction 1 as [|y l Hs IH Hall]; simpl.
  - repeat constructor.
  - destruct (str_ltb (key y) (key x)) eqn:E.
    + constructor; auto.
      eapply Permutation_Forall; [symmetry; apply insert_by_perm|].
      constructor; auto. now apply str_ltb_asym.
    + constructor; [now constructor|].
      constructor; auto.
      eapply Forall_impl; [|exact Hall].
      intros z Hz. now apply key_le_trans with y.
Qed.

Lemma sorted_by_sorted l : StronglySorted (key_le key) (sorted_by key l).
Proof.
  induction l as [|x l IH]; simpl; [constructor|].
  now apply insert_by_sorted.
Qed.

Lemma insert_by_with_key k x l :
  with_key key k (insert_by key x l) = with_key key k (x :: l).
Proof.
  unfold with_key.
  induction l as [|y l IH]; auto.
  cbn [insert_by]. destruct (str_ltb (key y) (key x)) eqn:E; auto.
  cbn [filter] in *. rewrite IH.
  destruct (str_eqb (key x) k) eqn:Ex, (str_eqb (key y) k) eqn:Ey; auto.
  apply str_eqb_eq in Ex, Ey. apply str_ltb_neq in E. congruence.
Qed.

(** The sort is stable: elements of equal key keep their order. *)
Lemma sorted_by_stable k l :
  with_key key k (sorted_by key l) = with_key key k l.
Proof.
  induction l as [|x l IH]; auto.
  cbn [sorted_by fold_right]. rewrite insert_by_with_key.
  unfold with_key in *. cbn [filter]. fold (sorted_by key l). now rewrite IH.
Qed.
End SortedFacts.

(** ** Renderer *)

Lemma replace_one (old new : char) (s : str) :
  replace old [new] s = List.map (fun c => if N.eqb c old then new else c) s.
Proof.
  unfold replace. induction s as [|c s IH]; simpl; auto.
  rewrite IH. now destruct (N.eqb c old).
Qed.

Lemma lstrip_chars_split (chars : char -> bool) (s : str) :
  exists lead, s = lead ++ lstrip_chars chars s
               /\ forallb chars lead = true
               /\ forall c, hd_error (lstrip_chars chars s) = Some c ->
                            chars c = false.
Proof.
  induction s as [|c s (lead & E & Hl & Hh)]; simpl.
  - exists []. repeat split; auto. discriminate.
  - destruct (chars c) eqn:Ec.
    + exists (c :: lead). simpl. rewrite Ec, Hl. repeat split; auto.
      now rewrite <- E.
    + exists []. simpl. repeat split; auto. now intros ? [= <-].
Qed.

Lemma strip_split (s : str) :
  exists lead trail,
    s = lead ++ strip s ++ trail
    /\ forallb isspace lead = true /\ forallb isspace trail = true
    /\ (forall c, hd_error (strip s) = Some c -> isspace c = false)
    /\ (forall c, hd_error (rev (strip s)) = Some c -> isspace c = false).
Proof.
  unfold strip, rstrip_chars.
  destruct (lstrip_chars_split isspace s) as (lead & E & Hl & Hh).
  set (m := lstrip_chars isspace s) in *.
  destruct (lstrip_chars_split isspace (rev m)) as (tr & E' & Ht & Hh').
  set (r := lstrip_chars isspace (rev m)) in *.
  assert (Em : m = rev r ++ rev tr).
  { rewrite <- rev_app_distr, <- E'. now rewrite rev_involutive. }
  exists lead, (rev tr). repeat split; auto.
  - now rewrite <- Em.
  - rewrite forallb_forall in *. intros c Hc. apply Ht. now apply in_rev.
  - intros c Hc. apply Hh. rewrite Em.
    destruct (rev r); [discriminate | exact Hc].
  - rewrite rev_involutive. exact Hh'.
Qed.

Lemma fold_left_snoc {A B} (f : A -> B) (l : list A) (acc : list B) :
  fold_left (fun acc x => acc ++ [f x]) l acc = acc ++ List.map f l.
Proof.
  revert acc; induction l as [|x l IH]; intros acc; simpl.
  - now rewrite app_nil_r.
  - rewrite IH, <- app_assoc. reflexivity.
Qed.

Lemma render_genre_section rt grouped lines genre :
  render_genre rt grouped lines genre = lines ++ genre_section rt grouped genre.
Proof.
  unfold render_genre, genre_section.
  rewrite fold_left_snoc. repeat rewrite <- app_assoc. reflexivity.
Qed.

Lemma fold_left_render_genre rt grouped genres lines :
  fold_left (render_genre rt grouped) genres lines
  = lines ++ flat_map (genre_section rt grouped) genres.
Proof.
  revert lines; induction genres as [|g genres IH]; intros lines; simpl.
  - now rewrite app_nil_r.
  - rewrite IH, render_genre_section, <- app_assoc. reflexivity.
Qed.

Lemma render_lines_sections rt grouped :
  render_lines rt grouped
  = [py "# YouTube Subscriptions by Genre"; []]
    ++ flat_map (genre_section rt grouped) (sorted (dict_keys grouped)).
Proof. apply fold_left_render_genre. Qed.

(** C7: the document is its heading followed by one section per genre, the
    genres in ascending order of their labels as [str], and within a genre
    the subscriptions in ascending order of their lowered titles, those of
    equal lowered title in the order of the group's list. *)
Theorem render_markdown_order (rt : Runtime)
  (grouped : dict (list Subscription)) :
  let genres := sorted (dict_keys grouped) in
  let key := fun s => lower rt (title s) in
  let emitted := fun genre => sorted_by key (defaultdict_item grouped genre) in
  render_markdown rt grouped
  = strip (join [LF]
             ([py "# YouTube Subscriptions by Genre"; []]
              ++ flat_map (fun genre =>
                             [py "## " ++ genre; []]
                             ++ List.map render_subscription (emitted genre)
                             ++ [[]])
                          genres)) ++ [LF]
  /\ Permutation genres (dict_keys grouped)
  /\ StronglySorted (fun a b => str_ltb b a = false) genres
  /\ forall genre,
      Permutation (emitted genre) (defaultdict_item grouped genre)
      /\ StronglySorted (fun s t => str_ltb (key t) (key s) = false)
                        (emitted genre)
      /\ forall k, with_key key k (emitted genre)
                   = with_key key k (defaultdict_item grouped genre).
Proof.
  cbv zeta. split; [|split; [|split]].
  - unfold render_markdown. now rewrite render_lines_sections.
  - apply sorted_by_perm.
  - apply (sorted_by_sorted str (fun s => s)).
  - intros genre. split; [|split].
    + apply sorted_by_perm.
    + apply (sorted_by_sorted Subscription (fun s => lower rt (title s))).
    + intros k. apply sorted_by_stable.
Qed.

Lemma render_subscription_in_lines rt grouped genre s :
  In genre (dict_keys grouped) ->
  In s (defaultdict_item grouped genre) ->
  In (render_subscription s) (render_lines rt grouped).
Proof.
  intros Hg Hs. rewrite render_lines_sections.
  apply in_or_app; right. apply in_flat_map. exists genre. split.
  - apply (Permutation_in _ (Permutation_sym (sorted_by_perm _ _ _)) Hg).
  - unfold genre_section. apply in_or_app; right. apply in_or_app; left.
    apply in_map.
    apply (Permutation_in _ (Permutation_sym (sorted_by_perm _ _ _)) Hs).
Qed.

(** C1, as the code has it: the line of a subscription is
    [- [title](channel_url)], followed by [ — d] exactly when [d] is not
    empty, where [d] is the description with the white space at its two
    ends removed and then each newline replaced by one space (two newlines
    in a row give two spaces); every subscription of a group has its line
    among the lines of the document. *)
Theorem render_subscription_line (s : Subscription) :
  let stripped := strip (description s) in
  let d := List.map (fun c => if N.eqb c LF then ord " " else c) stripped in
  (exists lead trail,
      description s = lead ++ stripped ++ trail
      /\ forallb isspace lead = true /\ forallb isspace trail = true
      /\ (forall c, hd_error stripped = Some c -> isspace c = false)
      /\ (forall c, hd_error (rev stripped) = Some c -> isspace c = false))
  /\ length d = length stripped
  /\ render_subscription s
     = py "- [" ++ title s ++ py "](" ++ channel_url s ++ py ")"
       ++ match d with
          | [] => []
          | _ => py " " ++ [EM_DASH] ++ py " " ++ d
          end
  /\ forall rt grouped genre,
      In genre (dict_keys grouped) ->
      In s (defaultdict_item grouped genre) ->
      In (render_subscription s) (render_lines rt grouped).
Proof.
  cbv zeta. split; [apply strip_split|]. split; [apply length_map|]. split.
  - unfold render_subscription.
    rewrite (replace_one LF (ord " ") (strip (description s))
             : replace LF (py " ") _ = _).
    match goal with
    | |- context [List.map ?f (strip (description s))] =>
        destruct (List.map f (strip (description s)))
    end; reflexivity.
  - intros rt grouped genre. apply render_subscription_in_lines.
Qed.

(** C1, as the claim has it, fails: the two newlines of the description
    [a\n\nb] give two spaces, not one. *)
Lemma render_subscription_two_newlines :
  let s := {| channel_id := py "C1"; title := py "T";
              description := py "a" ++ [LF; LF] ++ py "b";
              channel_url := py "U" |} in
  render_subscription s = py "- [T](U) " ++ [EM_DASH] ++ py " a  b"
  /\ render_subscription s <> py "- [T](U) " ++ [EM_DASH] ++ py " a b".
Proof. cbv zeta. split; [reflexivity | discriminate]. Qed.

(** ** [unquote] *)

Ltac case_branches :=
  repeat match goal with
         | |- context [if ?c then _ else _] => destruct c
         | |- context [match ?l with [] => _ | _ :: _ => _ end] => destruct l
         end.

Lemma utf8_decode_nonempty (b : N) (t : list N) : utf8_decode (b :: t) <> [].
Proof. cbn [utf8_decode]. case_branches; discriminate. Qed.

Lemma unquote_item_nonempty (item : list N) : unquote_item item <> [].
Proof.
  unfold unquote_item. destruct item as [|h [|l rest]]; try discriminate.
  destruct (hexval h), (hexval l); discriminate.
Qed.

Lemma split_nonempty (sep : char) (s : str) : split sep s <> [].
Proof.
  induction s as [|c s IH]; simpl; [discriminate|].
  destruct (N.eqb c sep); [discriminate|].
  destruct (split sep s); discriminate.
Qed.

Lemma unquote_to_bytes_nonempty (s : str) :
  s <> [] -> unquote_to_bytes s <> [].
Proof.
  intros Hs. unfold unquote_to_bytes. destruct s as [|c s]; [congruence|].
  destruct (split (ord "%") (c :: s)) as [|first [|item items]]; auto.
  simpl. intros H. apply app_eq_nil in H as [_ H].
  apply app_eq_nil in H as [H _]. now apply unquote_item_nonempty in H.
Qed.

Lemma decode_run_nonempty (run : str) :
  run <> [] -> utf8_decode (unquote_to_bytes run) <> [].
Proof.
  intros H. apply unquote_to_bytes_nonempty in H.
  destruct (unquote_to_bytes run); [congruence|].
  apply utf8_decode_nonempty.
Qed.

Lemma unquote_bits_nonempty (s run : str) :
  run <> [] \/ s <> [] -> unquote_bits run s <> [].
Proof.
  revert run; induction s as [|c s IH]; intros run H; simpl.
  - apply decode_run_nonempty. destruct H; congruence.
  - destruct (isascii c).
    + apply IH. left. destruct run; discriminate.
    + intros E. apply app_eq_nil in E as [_ E]. discriminate.
Qed.

(** Percent-decoding gives the empty string for the empty string only. *)
Lemma unquote_nil (s : str) : unquote s = [] <-> s = [].
Proof.
  split; [|intros ->; reflexivity].
  unfold unquote. destruct (negb (contains (ord "%") s)); auto.
  intros E. destruct s; auto.
  exfalso. revert E. apply unquote_bits_nonempty. right; discriminate.
Qed.

Lemma unquote_Uncategorized : unquote (py "Uncategorized") = py "Uncategorized".
Proof. reflexivity. Qed.

(** ** Label derivation *)

(** What [rsplit1] leaves last holds no separator, and is the whole of
    [s] or what follows a separator of [s]. *)
Lemma partition_spec (sep : char) (s before after : str) :
  partition sep s = Some (before, after) ->
  s = before ++ sep :: after /\ contains sep before = false.
Proof.
  revert before; induction s as [|c s IH]; intros before; simpl;
    [discriminate|].
  destruct (N.eqb_spec c sep) as [->|Hne].
  - intros [= <- <-]. auto.
  - destruct (partition sep s) as [[b a]|]; [|discriminate].
    intros [= <- <-]. destruct (IH b eq_refl) as [-> Hb]. split; auto.
    simpl. rewrite Hb. apply N.eqb_neq in Hne.
    now rewrite N.eqb_sym, Hne.
Qed.

Lemma partition_None (sep : char) (s : str) :
  partition sep s = None <-> contains sep s = false.
Proof.
  induction s as [|c s IH]; simpl; [tauto|].
  rewrite (N.eqb_sym sep c).
  destruct (N.eqb c sep); simpl; [split; discriminate|].
  destruct (partition sep s) as [[b a]|]; [|tauto].
  split; [discriminate|]. intros H. apply IH in H. discriminate.
Qed.

Lemma contains_rev (c : char) (s : str) : contains c (rev s) = contains c s.
Proof.
  unfold contains. apply eq_true_iff_eq.
  rewrite !existsb_exists.
  split; intros (x & Hx & E); exists x; split; auto.
  - now apply in_rev.
  - now apply -> in_rev.
Qed.

Lemma last_segment_spec (sep : char) (s : str) :
  let segment := last (rsplit1 sep s) [] in
  contains sep segment = false
  /\ (segment = s \/ exists before, s = before ++ sep :: segment).
Proof.
  cbv zeta. unfold rsplit1, rpartition.
  destruct (partition sep (rev s)) as [[after before]|] eqn:E; simpl.
  - apply partition_spec in E as [E Hc]. split.
    + now rewrite contains_rev.
    + right. exists (rev before).
      rewrite <- (rev_involutive s), E, rev_app_distr. simpl.
      now rewrite <- app_assoc.
  - apply partition_None in E. rewrite contains_rev in E. auto.
Qed.

(** C3, as the code has it: [readable_topic] takes the final segment of
    the path of the URL, replaces each underscore by a space and
    percent-decodes the result; the label is that string when it is not
    empty, and [Uncategorized] when it is empty.  So the label is
    [Uncategorized] when that string is empty or is [Uncategorized]
    itself.  (A URL that [urlparse] rejects has no path: the [ValueError]
    goes through.) *)
Theorem readable_topic_steps (rt : Runtime) (topic_url : str) :
  readable_topic rt topic_url
  = (parsed <- urlparse rt topic_url ;;
     let segment := last (rsplit1 (ord "/") (path parsed)) [] in
     let spaced :=
       List.map (fun c => if N.eqb c (ord "_") then ord " " else c) segment in
     let decoded := unquote spaced in
     Ok (match decoded with
         | [] => py "Uncategorized"
         | _ => decoded
         end))
  /\ (forall parsed, urlparse rt topic_url = Ok parsed ->
        let segment := last (rsplit1 (ord "/") (path parsed)) [] in
        contains (ord "/") segment = false
        /\ (segment = path parsed
            \/ exists before, path parsed = before ++ ord "/" :: segment))
  /\ (forall label, readable_topic rt topic_url = Ok label ->
        (label = py "Uncategorized"
         <-> decoded_segment rt topic_url = Ok []
             \/ decoded_segment rt topic_url = Ok (py "Uncategorized"))).
Proof.
  assert (H1 : readable_topic rt topic_url
               = (decoded <- decoded_segment rt topic_url ;;
                  Ok (match decoded with
                      | [] => py "Uncategorized"
                      | _ => decoded
                      end))).
  { unfold readable_topic, decoded_segment.
    destruct (urlparse rt topic_url) as [parsed|e]; simpl; auto.
    rewrite (replace_one (ord "_") (ord " ") _ : replace _ (py " ") _ = _).
    set (sp := List.map _ _). f_equal.
    destruct sp as [|c sp]; [reflexivity|].
    destruct (unquote (c :: sp)) eqn:Eu; auto.
    apply -> unquote_nil in Eu. discriminate. }
  split; [|split].
  - rewrite H1. unfold decoded_segment.
    now destruct (urlparse rt topic_url).
  - intros parsed _. apply last_segment_spec.
  - intros label. rewrite H1.
    destruct (decoded_segment rt topic_url) as [decoded|e]; cbn [bind];
      [|discriminate].
    intros [= <-]. split.
    + intros E. destruct decoded as [|c decoded]; [now left|].
      right. now rewrite E.
    + intros [[= ->]|[= ->]]; reflexivity.
Qed.

(** C3, as the claim has it, fails: the label of [https://x/Uncategorized]
    is [Uncategorized], and the string that the three steps give for it is
    [Uncategorized] too, which is not empty. *)
Lemma readable_topic_uncategorized_segment :
  derives_label (py "https://x/Uncategorized") (py "Uncategorized")
  /\ always_decodes_to (py "https://x/Uncategorized") (py "Uncategorized")
  /\ py "Uncategorized" <> [].
Proof.
  split; [intros rt; reflexivity|].
  split; [intros rt; reflexivity | discriminate].
Qed.

(** ** Labels without escapes *)

Lemma unquote_item_no_pair (item : list N) :
  starts_with_hex_pair item = false -> unquote_item item = ord "%" :: item.
Proof.
  unfold starts_with_hex_pair, unquote_item, ishex.
  destruct item as [|h [|l rest]]; auto.
  destruct (hexval h), (hexval l); auto; discriminate.
Qed.

Lemma starts_with_hex_pair_app (a b : str) :
  starts_with_hex_pair a = true -> starts_with_hex_pair (a ++ b) = true.
Proof. destruct a as [|h [|l a]]; simpl; auto; discriminate. Qed.

Lemma has_escape_app_l (a b : str) :
  has_escape (a ++ b) = false -> has_escape a = false.
Proof.
  induction a as [|x a IH]; simpl; auto.
  rewrite !orb_false_iff, !andb_false_iff. intros [[H|H] H']; split; auto.
  right. destruct (starts_with_hex_pair a) eqn:E; auto.
  now rewrite (starts_with_hex_pair_app a b E) in H.
Qed.

Lemma has_escape_app_r (a b : str) :
  has_escape (a ++ b) = false -> has_escape b = false.
Proof.
  induction a as [|x a IH]; simpl; auto.
  rewrite orb_false_iff. intros [_ H]. auto.
Qed.

Lemma split_unquote_items (s first : str) (items : list str) :
  has_escape s = false ->
  split (ord "%") s = first :: items ->
  first ++ flat_map unquote_item items = s.
Proof.
  revert first items; induction s as [|c s IH]; intros first items.
  - intros _ [= <- <-]. reflexivity.
  - cbn [has_escape split].
    rewrite orb_false_iff, andb_false_iff. intros [Hc Hs].
    destruct (split (ord "%") s) as [|f its] eqn:E;
      [now apply split_nonempty in E|].
    specialize (IH f its Hs eq_refl).
    destruct (N.eqb_spec c (ord "%")) as [->|Hne].
    + intros [= <- <-].
      destruct Hc as [Hc|Hc]; [discriminate|].
      cbn [flat_map app]. rewrite unquote_item_no_pair.
      * cbn [app]. f_equal. exact IH.
      * destruct (starts_with_hex_pair f) eqn:Ef; auto.
        rewrite <- IH in Hc.
        now rewrite (starts_with_hex_pair_app f _ Ef) in Hc.
    + intros [= <- <-]. cbn [app]. f_equal. exact IH.
Qed.

Lemma unquote_to_bytes_no_escape (s : str) :
  has_escape s = false -> unquote_to_bytes s = s.
Proof.
  intros H. unfold unquote_to_bytes. destruct s as [|c s]; auto.
  destruct (split (ord "%") (c :: s)) as [|first [|item items]] eqn:E; auto.
  now apply split_unquote_items.
Qed.

Lemma utf8_decode_ascii (bs : list N) :
  forallb isascii bs = true -> utf8_decode bs = bs.
Proof.
  induction bs as [|b bs IH]; auto.
  cbn [forallb]. rewrite andb_true_iff. intros [Hb Hbs].
  cbn [utf8_decode]. unfold isascii in Hb. rewrite Hb. now rewrite IH.
Qed.

Lemma unquote_bits_no_escape (s run : str) :
  forallb isascii run = true ->
  has_escape (run ++ s) = false ->
  unquote_bits run s = run ++ s.
Proof.
  revert run; induction s as [|c s IH]; intros run Hrun Hesc; simpl.
  - rewrite app_nil_r in *.
    now rewrite unquote_to_bytes_no_escape, utf8_decode_ascii.
  - destruct (isascii c) eqn:Ec.
    + rewrite IH.
      * now rewrite <- app_assoc.
      * rewrite forallb_app, Hrun. simpl. now rewrite Ec.
      * now rewrite <- app_assoc.
    + rewrite unquote_to_bytes_no_escape, utf8_decode_ascii; auto.
      * f_equal. f_equal. apply (IH []); auto.
        apply has_escape_app_r in Hesc.
        now apply (has_escape_app_r [c]) in Hesc.
      * now apply has_escape_app_l in Hesc.
Qed.

(** Percent-decoding leaves a string without escapes as it is. *)
Lemma unquote_no_escape (s : str) : has_escape s = false -> unquote s = s.
Proof.
  intros H. unfold unquote. destruct (negb (contains (ord "%") s)); auto.
  now apply (unquote_bits_no_escape s []).
Qed.

(** ** Labels with escapes *)

(** [lia] on lengths of [str] and of [list N]. *)
Ltac len_lia := unfold str, char in *; lia.

Lemma utf8_decode_length_le (n : nat) (bs : list N) :
  length bs <= n -> length (utf8_decode bs) <= length bs.
Proof.
  revert bs; induction n as [|n IH]; intros bs Hn.
  - destruct bs; simpl in *; lia.
  - destruct bs as [|b0 t0]; [simpl; lia|].
    cbn [utf8_decode]. case_branches; cbn [length] in *;
      repeat match goal with
             | |- context [utf8_decode ?x] =>
                 let H := fresh in
                 assert (H : length (utf8_decode x) <= length x)
                   by (apply IH; cbn [length] in *; lia);
                 revert H; generalize (utf8_decode x); intros ? ?
             end;
      cbn [length] in *; lia.
Qed.

Lemma unquote_item_length (item : list N) :
  length (unquote_item item) <= S (length item)
  /\ (starts_with_hex_pair item = true ->
      length (unquote_item item) < length item).
Proof.
  unfold unquote_item, starts_with_hex_pair, ishex.
  destruct item as [|h [|l rest]]; simpl; try (split; [len_lia|discriminate]).
  destruct (hexval h), (hexval l); simpl; split; try len_lia; discriminate.
Qed.

Lemma split_single (s first : str) : split (ord "%") s = [first] -> s = first.
Proof.
  revert first; induction s as [|c s IH]; intros first; cbn [split].
  - now intros [= <-].
  - destruct (split (ord "%") s) as [|f its] eqn:E;
      [now apply split_nonempty in E|].
    destruct (N.eqb c (ord "%")); [discriminate|].
    intros [= <- ->]. f_equal. now apply IH.
Qed.

Lemma unquote_to_bytes_split (s : str) :
  exists first items,
    split (ord "%") s = first :: items
    /\ unquote_to_bytes s = first ++ flat_map unquote_item items.
Proof.
  unfold unquote_to_bytes.
  destruct (split (ord "%") s) as [|first [|item items]] eqn:E.
  - now apply split_nonempty in E.
  - exists first, []. apply split_single in E. subst.
    destruct first; simpl; now rewrite ?app_nil_r.
  - exists first, (item :: items). destruct s; [discriminate|]. auto.
Qed.

Lemma ishex_not_percent (c : char) :
  ishex c = true -> N.eqb c (ord "%") = false.
Proof.
  unfold ishex, hexval. intros H. apply N.eqb_neq. intros ->. discriminate.
Qed.

Lemma split_items_length (s first : str) (items : list str) :
  split (ord "%") s = first :: items ->
  length (first ++ flat_map unquote_item items) <= length s
  /\ (has_escape s = true ->
      length (first ++ flat_map unquote_item items) < length s).
Proof.
  revert first items; induction s as [|c s IH]; intros first items.
  - intros [= <- <-]. simpl. split; [len_lia|discriminate].
  - cbn [has_escape split].
    destruct (split (ord "%") s) as [|f its] eqn:E;
      [now apply split_nonempty in E|].
    destruct (IH f its eq_refl) as [IHle IHlt].
    rewrite length_app in IHle, IHlt.
    destruct (unquote_item_length f) as [Hle Hlt].
    destruct (N.eqb_spec c (ord "%")) as [->|Hne].
    + intros [= <- <-]. cbn [flat_map app length andb].
      rewrite length_app. split; [len_lia|].
      rewrite orb_true_iff. intros [Hp|He]; [|specialize (IHlt He); len_lia].
      assert (Hf : starts_with_hex_pair f = true).
      { destruct s as [|h [|l r]]; try discriminate.
        simpl in Hp. apply andb_true_iff in Hp as [Hh Hl].
        cbn [split] in E.
        rewrite (ishex_not_percent h Hh), (ishex_not_percent l Hl) in E.
        destruct (split (ord "%") r) as [|p ps] eqn:Er;
          [now apply split_nonempty in Er|].
        injection E as <- <-. simpl. now rewrite Hh, Hl. }
      specialize (Hlt Hf). len_lia.
    + intros [= <- <-]. cbn [app length andb orb]. rewrite length_app.
      split; [len_lia|]. intros He. specialize (IHlt He). len_lia.
Qed.

Lemma unquote_to_bytes_length (s : str) :
  length (unquote_to_bytes s) <= length s
  /\ (has_escape s = true -> length (unquote_to_bytes s) < length s).
Proof.
  destruct (unquote_to_bytes_split s) as (first & items & E & ->).
  now apply split_items_length.
Qed.

Lemma decode_run_length (run : str) :
  length (utf8_decode (unquote_to_bytes run)) <= length run
  /\ (has_escape run = true ->
      length (utf8_decode (unquote_to_bytes run)) < length run).
Proof.
  destruct (unquote_to_bytes_length run) as [Hle Hlt].
  pose proof (utf8_decode_length_le _ (unquote_to_bytes run) (le_n _)).
  split; [len_lia|]. intros He. specialize (Hlt He). len_lia.
Qed.

Lemma not_ascii_not_hex (c : char) : isascii c = false -> ishex c = false.
Proof.
  unfold isascii, ishex, hexval. intros H. apply N.ltb_ge in H.
  destruct (N.leb_spec 48 c), (N.leb_spec c 57), (N.leb_spec 65 c),
    (N.leb_spec c 70), (N.leb_spec 97 c), (N.leb_spec c 102);
    simpl; auto; len_lia.
Qed.

Lemma has_escape_across (a b : str) (c : char) :
  isascii c = false ->
  has_escape (a ++ c :: b) = true ->
  has_escape a = true \/ has_escape b = true.
Proof.
  intros Hc. pose proof (not_ascii_not_hex c Hc) as Hx.
  induction a as [|x a IH]; cbn [app has_escape].
  - destruct (N.eqb_spec c (ord "%")) as [->|_]; [discriminate|]. auto.
  - rewrite !orb_true_iff. intros [Hp|He].
    + left; left. apply andb_true_iff in Hp as [-> Hp]. simpl.
      destruct a as [|h [|l a]]; simpl in *; auto.
      * destruct b; [discriminate|]. rewrite Hx in Hp. discriminate.
      * rewrite Hx, andb_false_r in Hp. discriminate.
    + destruct (IH He); auto.
Qed.

Lemma unquote_bits_length (s run : str) :
  length (unquote_bits run s) <= length run + length s
  /\ (has_escape (run ++ s) = true ->
      length (unquote_bits run s) < length run + length s).
Proof.
  revert run; induction s as [|c s IH]; intros run; cbn [unquote_bits].
  - rewrite app_nil_r. destruct (decode_run_length run) as [Hle Hlt].
    simpl. split; [len_lia|]. intros He. specialize (Hlt He). len_lia.
  - destruct (isascii c) eqn:Ec.
    + destruct (IH (run ++ [c])) as [Hle Hlt].
      rewrite <- app_assoc, length_app in *. simpl in *. split; [len_lia|].
      intros He. specialize (Hlt He). len_lia.
    + destruct (IH []) as [Hle Hlt].
      destruct (decode_run_length run) as [Hle' Hlt'].
      rewrite length_app. simpl in *. split; [len_lia|].
      intros He. destruct (has_escape_across _ _ _ Ec He) as [H|H].
      * specialize (Hlt' H). len_lia.
      * specialize (Hlt H). len_lia.
Qed.

Lemma has_escape_contains (s : str) :
  has_escape s = true -> contains (ord "%") s = true.
Proof.
  induction s as [|c s IH]; simpl; [discriminate|].
  rewrite !orb_true_iff, andb_true_iff. intros [[H _]|H]; auto.
  left. apply N.eqb_eq in H. subst c. reflexivity.
Qed.

(** Percent-decoding shortens a string that holds an escape. *)
Lemma unquote_escape (s : str) : has_escape s = true -> unquote s <> s.
Proof.
  intros He. unfold unquote. rewrite (has_escape_contains s He). simpl.
  destruct (unquote_bits_length s []) as [_ Hlt]. specialize (Hlt He).
  intros E. rewrite E in Hlt. simpl in Hlt. len_lia.
Qed.

(** C2, as the code has it: the label derived from a topic URL is left as
    it is by percent-decoding exactly when it holds no percent escape (a
    [%] followed by two hex digits). *)
Theorem readable_topic_unquote_fixed (rt : Runtime) (topic_url label : str) :
  readable_topic rt topic_url = Ok label ->
  (unquote label = label <-> has_escape label = false).
Proof.
  intros _. split.
  - intros E. destruct (has_escape label) eqn:He; auto.
    now apply unquote_escape in He.
  - apply unquote_no_escape.
Qed.

(** C2, as the claim has it, fails: the label of [.../wiki/%2541] is
    [%41], which percent-decoding turns into [A]. *)
Lemma readable_topic_label_decodes_again :
  derives_label (py "https://en.wikipedia.org/wiki/%2541") (py "%41")
  /\ unquote (py "%41") = py "A"
  /\ unquote (py "%41") <> py "%41".
Proof.
  split; [intros rt; reflexivity|]. split; [reflexivity | discriminate].
Qed.

Lemma readable_topic_unquote_fixed_wiki_music :
  unquote (py "Music") = py "Music" <-> has_escape (py "Music") = false.
Proof.
  apply (readable_topic_unquote_fixed ascii_runtime
           (py "https://en.wikipedia.org/wiki/Music") (py "Music")).
  reflexivity.
Defined.

(** ** Categorizer *)

Section DefaultdictFacts.
Variable A : Type.
Implicit Types (d : dict (list A)) (k g : str) (x y : A).

Lemma defaultdict_append_cons d k k' (l : list A) x :
  defaultdict_append ((k', l) :: d) k x
  = if str_eqb k' k then (k', l ++ [x]) :: d
    else (k', l) :: defaultdict_append d k x.
Proof.
  unfold defaultdict_append. simpl. now destruct (str_eqb k' k).
Qed.

Lemma defaultdict_append_values d k x :
  Permutation (concat (dict_values (defaultdict_append d k x)))
              (concat (dict_values d) ++ [x]).
Proof.
  induction d as [|[k' l] d IH].
  - reflexivity.
  - rewrite defaultdict_append_cons. destruct (str_eqb k' k); simpl.
    + rewrite <- !app_assoc. apply Permutation_app_head.
      apply Permutation_app_comm.
    + rewrite IH, app_assoc. reflexivity.
Qed.

Lemma defaultdict_append_keys d k x :
  NoDup (dict_keys d) -> NoDup (dict_keys (defaultdict_append d k x)).
Proof.
  intros Hnd. unfold defaultdict_append.
  destruct (dict_get d k) as [l|] eqn:E.
  - now erewrite dict_keys_set_present by exact E.
  - rewrite dict_keys_set_absent by exact E.
    apply NoDup_app; auto.
    + repeat constructor. simpl; tauto.
    + intros a Ha [<-|[]]. now apply dict_get_None in E.
Qed.

(** After [d[k].append(x)] the group of [k] ends with [x]; whatever was in
    a group is still in it. *)
Lemma defaultdict_append_get_same d k x :
  exists l, dict_get (defaultdict_append d k x) k = Some (l ++ [x]).
Proof.
  unfold defaultdict_append. rewrite dict_get_set_same.
  destruct (dict_get d k) as [l|]; [now exists l | now exists []].
Qed.

Lemma defaultdict_append_keeps d k x g l y :
  dict_get d g = Some l -> In y l ->
  exists l', dict_get (defaultdict_append d k x) g = Some l' /\ In y l'.
Proof.
  intros Hg Hy. unfold defaultdict_append.
  destruct (str_eqb k g) eqn:E.
  - apply str_eqb_eq in E; subst g. rewrite dict_get_set_same, Hg.
    exists (l ++ [x]). split; auto. apply in_or_app; auto.
  - apply str_eqb_neq in E. rewrite dict_get_set_other by congruence.
    now exists l.
Qed.

(** Whatever is in a group after [d[k].append(x)] was in that group, or
    is [x] in the group of [k]. *)
Lemma defaultdict_append_In d k x g l y :
  In (g, l) (defaultdict_append d k x) -> In y l ->
  (g = k /\ y = x) \/ exists l0, In (g, l0) d /\ In y l0.
Proof.
  induction d as [|[k' l'] d IH].
  - simpl. intros [[= <- <-]|[]] [<-|[]]. auto.
  - rewrite defaultdict_append_cons. destruct (str_eqb k' k) eqn:E.
    + apply str_eqb_eq in E; subst k'. intros [[= <- <-]|Hin] Hy.
      * apply in_app_or in Hy as [Hy|[<-|[]]]; auto.
        right. exists l'. split; simpl; auto.
      * right. exists l. split; simpl; auto.
    + intros [[= <- <-]|Hin] Hy.
      * right. exists l'. split; simpl; auto.
      * destruct (IH Hin Hy) as [?|(l0 & H0 & H1)]; auto.
        right. exists l0. split; simpl; auto.
Qed.
End DefaultdictFacts.

Section CategorizerFacts.
Variable rt : Runtime.
Variable topics : dict (list str).
Implicit Types (subs : list Subscription) (d g : dict (list Subscription)).

Lemma categorize_loop_values subs d g :
  categorize_loop rt subs topics d = Ok g ->
  Permutation (concat (dict_values g)) (concat (dict_values d) ++ subs).
Proof.
  revert d; induction subs as [|s subs IH]; intros d; simpl.
  - intros [= <-]. now rewrite app_nil_r.
  - destruct (genre_of rt topics s) as [genre|e]; simpl; [|discriminate].
    intros H. rewrite (IH _ H), defaultdict_append_values, <- app_assoc.
    reflexivity.
Qed.

Lemma categorize_loop_keys subs d g :
  categorize_loop rt subs topics d = Ok g ->
  NoDup (dict_keys d) -> NoDup (dict_keys g).
Proof.
  revert d; induction subs as [|s subs IH]; intros d; simpl.
  - now intros [= <-].
  - destruct (genre_of rt topics s) as [genre|e]; simpl; [|discriminate].
    intros H Hnd. apply (IH _ H). now apply defaultdict_append_keys.
Qed.

Lemma categorize_loop_genres subs d g genre group s :
  categorize_loop rt subs topics d = Ok g ->
  In (genre, group) g -> In s group ->
  (In s subs /\ genre_of rt topics s = Ok genre)
  \/ exists group0, In (genre, group0) d /\ In s group0.
Proof.
  revert d; induction subs as [|s0 subs IH]; intros d; simpl.
  - intros [= <-] Hin Hs. right. now exists group.
  - destruct (genre_of rt topics s0) as [genre0|e] eqn:E; simpl;
      [|discriminate].
    intros H Hin Hs.
    destruct (IH _ H Hin Hs) as [[? ?]|(group0 & H0 & H1)]; auto.
    destruct (defaultdict_append_In _ _ _ _ _ _ _ H0 H1)
      as [[-> ->]|(l0 & ? & ?)]; auto.
    right. now exists l0.
Qed.

Lemma categorize_loop_keeps subs d g genre group0 s :
  categorize_loop rt subs topics d = Ok g ->
  dict_get d genre = Some group0 -> In s group0 ->
  exists group, dict_get g genre = Some group /\ In s group.
Proof.
  revert d group0; induction subs as [|s0 subs IH]; intros d group0; simpl.
  - intros [= <-] Hg Hs. now exists group0.
  - destruct (genre_of rt topics s0) as [genre0|e]; simpl; [|discriminate].
    intros H Hg Hs.
    destruct (defaultdict_append_keeps _ d genre0 s0 genre _ _ Hg Hs)
      as (l' & Hg' & Hs').
    apply (IH _ _ H Hg' Hs').
Qed.

(** Each subscription is in the group of its genre. *)
Lemma categorize_loop_member subs d g genre s :
  categorize_loop rt subs topics d = Ok g ->
  In s subs -> genre_of rt topics s = Ok genre ->
  exists group, dict_get g genre = Some group /\ In s group.
Proof.
  revert d; induction subs as [|s0 subs IH]; intros d; simpl; [tauto|].
  destruct (genre_of rt topics s0) as [genre0|e] eqn:E; simpl;
    [|discriminate].
  intros H [->|Hin] Hgenre.
  - rewrite Hgenre in E. injection E as <-.
    destruct (defaultdict_append_get_same _ d genre s) as (l & Hl).
    apply (categorize_loop_keeps _ _ _ _ _ _ H Hl).
    apply in_or_app; simpl; auto.
  - apply (IH _ H Hin Hgenre).
Qed.

(** The loop raises what the first failing [readable_topic] raises. *)
Lemma categorize_loop_raises subs d e :
  categorize_loop rt subs topics d = Raise e ->
  exists s, In s subs /\ genre_of rt topics s = Raise e.
Proof.
  revert d; induction subs as [|s subs IH]; intros d; simpl; [discriminate|].
  destruct (genre_of rt topics s) as [genre|e0] eqn:E; simpl.
  - intros H. destruct (IH _ H) as (s' & ? & ?). exists s'. auto.
  - intros [= <-]. exists s. auto.
Qed.

Lemma categorize_loop_total subs d :
  (forall s, In s subs -> exists genre, genre_of rt topics s = Ok genre) ->
  exists g, categorize_loop rt subs topics d = Ok g.
Proof.
  intros H. destruct (categorize_loop rt subs topics d) as [g|e] eqn:E.
  - now exists g.
  - apply categorize_loop_raises in E as (s & Hs & He).
    destruct (H s Hs) as (genre & Hg). congruence.
Qed.
End CategorizerFacts.

(** ** URLs that [urlparse] accepts *)

Lemma lstrip_chars_incl (chars : char -> bool) (s : str) :
  incl (lstrip_chars chars s) s.
Proof.
  induction s as [|c s IH]; simpl; [apply incl_refl|].
  destruct (chars c); [now apply incl_tl | apply incl_refl].
Qed.

Lemma replace_nil_incl (old : char) (s : str) : incl (replace old [] s) s.
Proof.
  unfold replace. induction s as [|c s IH]; simpl; [apply incl_refl|].
  destruct (N.eqb c old); simpl.
  - now apply incl_tl.
  - apply incl_cons; [now left | now apply incl_tl].
Qed.

Lemma partition_incl (sep : char) (s before after : str) :
  partition sep s = Some (before, after) -> incl after s.
Proof.
  intros H. apply partition_spec in H as [-> _].
  apply incl_appr, incl_tl, incl_refl.
Qed.

Lemma take_scheme_incl (url : str) : incl (snd (take_scheme url)) url.
Proof.
  unfold take_scheme.
  destruct (partition (ord ":") url) as [[[|c before] after]|] eqn:E;
    cbn [snd]; try apply incl_refl.
  destruct (isascii_alpha c && forallb scheme_char (c :: before)); cbn [snd];
    [now apply partition_incl in E | apply incl_refl].
Qed.

Lemma span_until_incl (stop : char -> bool) (s : str) :
  incl (fst (span_until stop s)) s.
Proof.
  induction s as [|c s IH]; simpl; [apply incl_refl|].
  destruct (stop c); simpl; [apply incl_nil_l|].
  destruct (span_until stop s) as [before rest]; simpl in *.
  apply incl_cons; [now left | now apply incl_tl].
Qed.

Lemma skipn_incl (n : nat) (s : str) : incl (skipn n s) s.
Proof.
  revert s; induction n as [|n IH]; intros [|c s]; simpl;
    try apply incl_refl.
  now apply incl_tl.
Qed.

Lemma splitnetloc_incl (url : str) : incl (fst (_splitnetloc url)) url.
Proof.
  unfold _splitnetloc.
  eapply incl_tran; [apply span_until_incl | apply skipn_incl].
Qed.

Lemma forallb_incl (p : char -> bool) (a b : str) :
  incl a b -> forallb p b = true -> forallb p a = true.
Proof. rewrite !forallb_forall. unfold incl. auto. Qed.

Lemma contains_incl (c : char) (a b : str) :
  incl a b -> contains c b = false -> contains c a = false.
Proof.
  unfold contains. intros Hi Hb.
  destruct (existsb (N.eqb c) a) eqn:E; auto.
  apply existsb_exists in E as (x & Hx & Ex).
  rewrite <- Hb. symmetry. apply existsb_exists. exists x. auto.
Qed.

Ltac case_partitions :=
  repeat match goal with
         | |- context [match partition ?c ?x with _ => _ end] =>
             destruct (partition c x) as [[? ?]|]
         end.

(** [urlsplit] accepts every ASCII URL without square brackets. *)
Lemma urlsplit_accepts (rt : Runtime) (url : str) :
  forallb isascii url = true ->
  contains (ord "[") url = false ->
  contains (ord "]") url = false ->
  exists r, urlsplit rt url = Ok r.
Proof.
  intros Ha Ho Hc. unfold urlsplit.
  set (u := replace LF [] _).
  assert (Hu : incl u url).
  { unfold u. repeat (eapply incl_tran; [apply replace_nil_incl|]).
    apply lstrip_chars_incl. }
  pose proof (take_scheme_incl u) as Hs.
  destruct (take_scheme u) as [sch u']. simpl in Hs.
  assert (Hu' : incl u' url) by (eapply incl_tran; eauto).
  destruct (str_eqb (firstn 2 u') (py "//")).
  - pose proof (splitnetloc_incl u') as Hn.
    destruct (_splitnetloc u') as [nl rest]. simpl in Hn.
    assert (Hnl : incl nl url) by (eapply incl_tran; eauto).
    unfold check_brackets.
    rewrite (contains_incl _ _ _ Hnl Ho), (contains_incl _ _ _ Hnl Hc).
    cbn [bind andb orb negb]. unfold _checknetloc.
    rewrite (forallb_incl _ _ _ Hnl Ha).
    destruct nl; case_partitions; eexists; reflexivity.
  - cbn [bind]. case_partitions; eexists; reflexivity.
Qed.

Lemma urlparse_accepts (rt : Runtime) (url : str) :
  forallb isascii url = true ->
  contains (ord "[") url = false ->
  contains (ord "]") url = false ->
  exists parsed, urlparse rt url = Ok parsed.
Proof.
  intros Ha Ho Hc. unfold urlparse.
  destruct (urlsplit_accepts rt url Ha Ho Hc) as (r & ->). simpl.
  destruct (_ && _); [destruct (_splitparams _)|]; eexists; reflexivity.
Qed.

(** ** The labels are not empty *)

Lemma readable_topic_label_nonempty (rt : Runtime) (topic_url label : str) :
  readable_topic rt topic_url = Ok label -> label <> [].
Proof.
  unfold readable_topic. destruct (urlparse rt topic_url) as [parsed|e];
    simpl; [|discriminate].
  intros [= <-] E. apply -> unquote_nil in E.
  destruct (replace _ _ _); discriminate.
Qed.

Lemma genre_of_nonempty (rt : Runtime) (topics : dict (list str))
  (s : Subscription) (genre : str) :
  genre_of rt topics s = Ok genre -> genre <> [].
Proof.
  unfold genre_of.
  destruct (dict_get topics (channel_id s)) as [[|first rest]|].
  - intros [= <-]. discriminate.
  - apply readable_topic_label_nonempty.
  - intros [= <-]. discriminate.
Qed.

Lemma defaultdict_append_keys_In {A} (d : dict (list A)) (k g : str) (x : A) :
  In g (dict_keys (defaultdict_append d k x)) -> g = k \/ In g (dict_keys d).
Proof.
  unfold defaultdict_append. destruct (dict_get d k) as [l|] eqn:E.
  - erewrite dict_keys_set_present by exact E. auto.
  - rewrite dict_keys_set_absent by exact E.
    intros H. apply in_app_or in H as [H|[<-|[]]]; auto.
Qed.

Lemma categorize_loop_keys_In (rt : Runtime) (topics : dict (list str))
  (subs : list Subscription) (d g : dict (list Subscription)) (genre : str) :
  categorize_loop rt subs topics d = Ok g ->
  In genre (dict_keys g) ->
  In genre (dict_keys d)
  \/ exists s, In s subs /\ genre_of rt topics s = Ok genre.
Proof.
  revert d; induction subs as [|s subs IH]; intros d; simpl.
  - intros [= <-]. auto.
  - destruct (genre_of rt topics s) as [genre0|e] eqn:E; simpl;
      [|discriminate].
    intros H Hin. destruct (IH _ H Hin) as [Hk|(s' & ? & ?)].
    + apply defaultdict_append_keys_In in Hk as [->|Hk]; auto.
      right. exists s. auto.
    + right. exists s'. auto.
Qed.

(** C10, as the code has it: on a URL that [urlparse] accepts (every
    ASCII URL without square brackets is one) [readable_topic] returns a
    string that is not empty, and on a URL that [urlparse] rejects it
    raises; the genre labels of a grouping that [categorize_subscriptions]
    returns are not empty. *)
Theorem readable_topic_nonempty (rt : Runtime) :
  (forall topic_url,
      match urlparse rt topic_url with
      | Ok _ => exists label,
          readable_topic rt topic_url = Ok label /\ label <> []
      | Raise e => readable_topic rt topic_url = Raise e
      end)
  /\ (forall topic_url,
         forallb isascii topic_url = true ->
         contains (ord "[") topic_url = false ->
         contains (ord "]") topic_url = false ->
         exists label, readable_topic rt topic_url = Ok label /\ label <> [])
  /\ (forall subscriptions topics,
         match categorize_subscriptions rt subscriptions topics with
         | Ok grouped => Forall (fun genre => genre <> []) (dict_keys grouped)
         | Raise _ => True
         end).
Proof.
  assert (H1 : forall topic_url,
             match urlparse rt topic_url with
             | Ok _ => exists label,
                 readable_topic rt topic_url = Ok label /\ label <> []
             | Raise e => readable_topic rt topic_url = Raise e
             end).
  { intros u. destruct (urlparse rt u) as [parsed|e] eqn:E.
    - destruct (readable_topic rt u) as [label|e] eqn:El.
      + exists label. split; auto.
        now apply readable_topic_label_nonempty in El.
      + unfold readable_topic in El. rewrite E in El. discriminate.
    - unfold readable_topic. now rewrite E. }
  split; [exact H1|]. split.
  - intros u Ha Ho Hc. specialize (H1 u).
    destruct (urlparse_accepts rt u Ha Ho Hc) as (parsed & E).
    now rewrite E in H1.
  - intros subs topics. unfold categorize_subscriptions.
    destruct (categorize_loop rt subs topics []) as [grouped|e] eqn:E; auto.
    apply Forall_forall. intros genre Hin.
    destruct (categorize_loop_keys_In _ _ _ _ _ _ E Hin) as [[]|(s & _ & Hs)].
    now apply genre_of_nonempty in Hs.
Qed.

(** C10, as the claim has it, fails: [urlparse] raises [ValueError] on
    [//[], a host with an opening bracket and no closing one, and so does
    [readable_topic]; it returns no string. *)
Lemma readable_topic_raises_on_open_bracket :
  always_rejected (py "//[").
Proof. intros rt. reflexivity. Qed.

(** ** Grouping *)

Lemma categorize_loop_ext (rt : Runtime) (topics topics' : dict (list str))
  (subs : list Subscription) (d : dict (list Subscription)) :
  (forall s, In s subs -> genre_of rt topics s = genre_of rt topics' s) ->
  categorize_loop rt subs topics d = categorize_loop rt subs topics' d.
Proof.
  revert d; induction subs as [|s subs IH]; intros d H; simpl; auto.
  rewrite <- (H s) by (now left).
  destruct (genre_of rt topics s); simpl; auto.
  apply IH. intros s' Hs'. apply H. now right.
Qed.

(** C6: when [categorize_subscriptions] returns a grouping, its groups put
    together are the input list up to order, so their lengths add up to the
    length of the input; no genre has two groups, each subscription of a
    group has the genre of the group, and each input subscription is in a
    group; it raises only what [readable_topic] raises on the first topic
    URL of an input subscription. *)
Theorem categorize_partition (rt : Runtime)
  (subscriptions : list Subscription) (topics : dict (list str)) :
  match categorize_subscriptions rt subscriptions topics with
  | Ok grouped =>
      Permutation (concat (dict_values grouped)) subscriptions
      /\ list_sum (List.map (@length Subscription) (dict_values grouped))
         = length subscriptions
      /\ NoDup (dict_keys grouped)
      /\ (forall genre group s,
             In (genre, group) grouped -> In s group ->
             In s subscriptions /\ genre_of rt topics s = Ok genre)
      /\ (forall s, In s subscriptions ->
             exists genre group, In (genre, group) grouped /\ In s group)
      /\ (forall s genre group genre' group',
             In (genre, group) grouped -> In s group ->
             In (genre', group') grouped -> In s group' ->
             genre' = genre /\ group' = group)
  | Raise e =>
      exists s, In s subscriptions /\ genre_of rt topics s = Raise e
  end.
Proof.
  unfold categorize_subscriptions.
  destruct (categorize_loop rt subscriptions topics []) as [grouped|e] eqn:E;
    [|now apply categorize_loop_raises in E].
  pose proof (categorize_loop_values _ _ _ _ _ E) as Hperm. simpl in Hperm.
  pose proof (categorize_loop_keys _ _ _ _ _ E (NoDup_nil _)) as Hnd.
  assert (Hgenre : forall genre group s,
             In (genre, group) grouped -> In s group ->
             In s subscriptions /\ genre_of rt topics s = Ok genre).
  { intros genre group s Hin Hs.
    destruct (categorize_loop_genres _ _ _ _ _ _ _ _ E Hin Hs)
      as [?|(group0 & [] & _)]; auto. }
  split; [exact Hperm|]. split.
  { rewrite <- length_concat. now apply Permutation_length. }
  split; [exact Hnd|]. split; [exact Hgenre|]. split.
  - intros s Hs.
    assert (Hin : In s (concat (dict_values grouped)))
      by (eapply Permutation_in; [symmetry; exact Hperm | exact Hs]).
    apply in_concat in Hin as (group & Hg & Hsg).
    apply in_map_iff in Hg as ([genre group'] & <- & Hin).
    now exists genre, group'.
  - intros s genre group genre' group' Hin Hs Hin' Hs'.
    destruct (Hgenre _ _ _ Hin Hs) as [_ Hg].
    destruct (Hgenre _ _ _ Hin' Hs') as [_ Hg'].
    assert (genre' = genre) by congruence. subst genre'. split; auto.
    apply (In_dict_get _ _ _ _ Hnd) in Hin, Hin'. congruence.
Qed.

Lemma genre_of_set (rt : Runtime) (topics : dict (list str)) (k : str)
  (urls : list str) (s : Subscription) :
  genre_of rt (dict_set topics k urls) s
  = if str_eqb k (channel_id s)
    then match urls with
         | first :: _ => readable_topic rt first
         | [] => Ok (py "Uncategorized")
         end
    else genre_of rt topics s.
Proof.
  unfold genre_of. destruct (str_eqb k (channel_id s)) eqn:E.
  - apply str_eqb_eq in E. subst k. now rewrite dict_get_set_same.
  - apply str_eqb_neq in E. rewrite dict_get_set_other by congruence.
    reflexivity.
Qed.

(** C4: a topic map without the key [k] and the same map with [k] bound
    to the empty list give the same outcome of [categorize_subscriptions];
    under both a subscription of channel [k] has the genre [Uncategorized],
    and it is in the group of that label in the grouping returned. *)
Theorem categorize_absent_like_empty (rt : Runtime)
  (subscriptions : list Subscription) (topics : dict (list str)) (k : str) :
  dict_get topics k = None ->
  categorize_subscriptions rt subscriptions topics
  = categorize_subscriptions rt subscriptions (dict_set topics k [])
  /\ forall s, In s subscriptions -> channel_id s = k ->
       genre_of rt topics s = Ok (py "Uncategorized")
       /\ genre_of rt (dict_set topics k []) s = Ok (py "Uncategorized")
       /\ forall grouped,
           categorize_subscriptions rt subscriptions topics = Ok grouped ->
           exists group,
             dict_get grouped (py "Uncategorized") = Some group
             /\ In s group.
Proof.
  intros Hk.
  assert (Hg : forall s, genre_of rt topics s
                         = genre_of rt (dict_set topics k []) s).
  { intros s. rewrite genre_of_set.
    destruct (str_eqb k (channel_id s)) eqn:E; auto.
    apply str_eqb_eq in E. subst k. unfold genre_of. now rewrite Hk. }
  split.
  - apply categorize_loop_ext. auto.
  - intros s Hs <-.
    assert (Hu : genre_of rt topics s = Ok (py "Uncategorized"))
      by (unfold genre_of; now rewrite Hk).
    split; [exact Hu|]. split; [now rewrite <- Hg|].
    intros grouped E.
    apply (categorize_loop_member rt topics _ _ _ _ s E Hs Hu).
Qed.

Lemma categorize_absent_like_empty_foo :
  categorize_subscriptions ascii_runtime [foo_channel] []
  = categorize_subscriptions ascii_runtime [foo_channel]
      (dict_set [] (py "C1") []).
Proof.
  exact (proj1 (categorize_absent_like_empty ascii_runtime [foo_channel] []
                  (py "C1") eq_refl)).
Defined.

(** C5: the outcome of [categorize_subscriptions] is the same whatever
    follows the first URL in the topic list of a channel; the genre of a
    subscription of that channel is the label of the first URL. *)
Theorem categorize_first_url_only (rt : Runtime)
  (subscriptions : list Subscription) (topics : dict (list str)) (k : str)
  (first : str) (rest rest' : list str) :
  categorize_subscriptions rt subscriptions (dict_set topics k (first :: rest))
  = categorize_subscriptions rt subscriptions
      (dict_set topics k (first :: rest'))
  /\ forall s, channel_id s = k ->
       genre_of rt (dict_set topics k (first :: rest)) s
       = readable_topic rt first.
Proof.
  split.
  - apply categorize_loop_ext. intros s _. now rewrite !genre_of_set.
  - intros s <-. now rewrite genre_of_set, str_eqb_refl.
Qed.

(** ** [main] *)

(** C9: when [fetch_subscriptions] or [fetch_channel_topics] raises an
    [HttpError], [main] ends with [SystemExit] and has written and printed
    nothing: [write_output] is not called. *)
Theorem main_api_error_writes_nothing (rt : Runtime) (output : str)
  (youtube : Youtube) (exc : str) :
  fetch_subscriptions youtube = Raise (HttpError exc)
  \/ (exists subscriptions,
         fetch_subscriptions youtube = Ok subscriptions
         /\ fetch_channel_topics youtube (List.map channel_id subscriptions)
            = Raise (HttpError exc)) ->
  main rt output youtube
  = ([], Raise (SystemExit (py "YouTube API request failed: " ++ exc)))
  /\ forall output_path data,
      ~ In (WriteText output_path data) (fst (main rt output youtube)).
Proof.
  intros H.
  assert (E : main rt output youtube
              = ([], Raise (SystemExit
                              (py "YouTube API request failed: " ++ exc)))).
  { unfold main. destruct H as [->|(subs & -> & H)]; simpl; auto.
    now rewrite H. }
  split; [exact E|]. intros output_path data. now rewrite E.
Qed.

Lemma main_failing_midway_writes_nothing :
  main ascii_runtime (py "subscriptions_memo.md") failing_midway
  = ([], Raise (SystemExit
                  (py "YouTube API request failed: quotaExceeded"))).
Proof.
  exact (proj1 (main_api_error_writes_nothing ascii_runtime
                  (py "subscriptions_memo.md") failing_midway
                  (py "quotaExceeded") (or_introl eq_refl))).
Defined.

(** X14: [main] touches the output file only after both fetches and the
    categorizer have returned.  When it ends without raising, it has
    written the document of that grouping to the output path, once, and
    then printed the number of subscriptions fetched.  When it raises,
    either nothing was written or printed, or the write itself failed
    after the file was opened (the file is left empty or incomplete), or
    the document was written and [print] failed. *)
Lemma main_writes_on_success_only (rt : Runtime) (output : str)
  (youtube : Youtube) :
  match main rt output youtube with
  | (events, Ok _) =>
      exists subscriptions topics grouped,
        fetch_subscriptions youtube = Ok subscriptions
        /\ fetch_channel_topics youtube (List.map channel_id subscriptions)
           = Ok topics
        /\ categorize_subscriptions rt subscriptions topics = Ok grouped
        /\ events
           = [WriteText output (render_markdown rt grouped);
              PrintLine (py "Wrote " ++ str_of_nat (length subscriptions)
                            ++ py " subscriptions to " ++ output)]
  | (events, Raise _) =>
      events = []
      \/ exists subscriptions topics grouped,
          fetch_subscriptions youtube = Ok subscriptions
          /\ fetch_channel_topics youtube
               (List.map channel_id subscriptions) = Ok topics
          /\ categorize_subscriptions rt subscriptions topics = Ok grouped
          /\ (events = [WriteFailed output]
              \/ events = [WriteText output (render_markdown rt grouped)])
  end.
Proof.
  unfold main.
  destruct (fetch_subscriptions youtube) as [subs|e]; cbn [bind];
    [|destruct e; now left].
  destruct (fetch_channel_topics youtube _) as [topics|e] eqn:Et; cbn [bind];
    [|destruct e; now left].
  destruct (categorize_subscriptions rt subs topics) as [grouped|e] eqn:E;
    [|now left].
  cbv zeta. unfold write_output.
  destruct (open_error rt output); [now left|].
  destruct (existsb surrogate (render_markdown rt grouped)).
  { right. exists subs, topics, grouped. repeat split; auto. }
  destruct (write_error rt output (render_markdown rt grouped)).
  { right. exists subs, topics, grouped. repeat split; auto. }
  destruct (print_error rt _).
  - right. exists subs, topics, grouped. repeat split; auto.
  - exists subs, topics, grouped. repeat split; auto.
Qed.

(** ** Examples *)

(** The example of the specification: the genre of [foo_channel] is the
    last segment of its first topic URL, and its line joins the two lines
    of its description with a space. *)
Example foo_channel_genre (rt : Runtime) :
  genre_of rt
    [(py "C1", [py "https://www.youtube.com/channel/UCtopic/m/04rlf"])]
    foo_channel
  = Ok (py "04rlf").
Proof. reflexivity. Qed.

Example foo_channel_line :
  render_subscription foo_channel
  = py "- [Foo Channel](https://www.youtube.com/channel/C1) "
    ++ [EM_DASH] ++ py " Fun stuff more".
Proof. reflexivity. Qed.

Example foo_channel_document :
  bind (categorize_subscriptions ascii_runtime [foo_channel]
          [(py "C1", [py "https://en.wikipedia.org/wiki/Rock_music"])])
       (fun grouped => Ok (render_markdown ascii_runtime grouped))
  = Ok (py "# YouTube Subscriptions by Genre" ++ [LF; LF]
        ++ py "## Rock music" ++ [LF; LF]
        ++ py "- [Foo Channel](https://www.youtube.com/channel/C1) "
        ++ [EM_DASH] ++ py " Fun stuff more" ++ [LF]).
Proof. reflexivity. Qed.

(** [urlparse] leaves the query, the fragment and, for the schemes of
    [uses_params], the parameters of the last segment out of the path. *)
Example readable_topic_drops_query (rt : Runtime) :
  readable_topic rt (py "https://en.wikipedia.org/wiki/Pop_music;v=1?x#y")
  = Ok (py "Pop music").
Proof. reflexivity. Qed.

Example readable_topic_empty (rt : Runtime) :
  readable_topic rt [] = Ok (py "Uncategorized")
  /\ readable_topic rt (py "https://en.wikipedia.org")
     = Ok (py "Uncategorized")
  /\ readable_topic rt (py "https://en.wikipedia.org/wiki/")
     = Ok (py "Uncategorized").
Proof. repeat split. Qed.

(** Escapes are decoded as UTF-8; bytes that are not UTF-8 give U+FFFD. *)
Example unquote_utf8 :
  unquote (py "a%E3%81%82b") = [ord "a"; 12354%N; ord "b"]
  /\ unquote (py "%ff%fe") = [REPLACEMENT; REPLACEMENT]
  /\ unquote (py "%e3%81") = [REPLACEMENT]
  /\ unquote (py "%f0%90%80A") = [REPLACEMENT; ord "A"]
  /\ unquote (py "%zz%4") = py "%zz%4".
Proof. repeat split. Qed.

Example sorted_titles :
  List.map title
    (sorted_by (fun s => lower ascii_runtime (title s))
       [ {| channel_id := py "1"; title := py "zeta";
            description := []; channel_url := [] |};
         {| channel_id := py "2"; title := py "Alpha";
            description := []; channel_url := [] |} ])
  = [py "Alpha"; py "zeta"]
  /\ sorted [py "Gaming"; py "Comedy"] = [py "Comedy"; py "Gaming"].
Proof. split; reflexivity. Qed.

(** * Further properties *)

(** ** [_chunked] for any size *)

Lemma chunk_sizes_length (size filled n : nat) :
  filled < size ->
  length (chunk_sizes size filled n) = (filled + n + (size - 1)) / size.
Proof.
  revert filled; induction n as [|n IH]; intros filled Hlt.
  - cbn [chunk_sizes]. destruct filled as [|filled].
    + simpl. symmetry. apply Nat.div_small. lia.
    + cbn [length]. apply (Nat.div_unique _ size 1 filled); lia.
  - cbn [chunk_sizes]. destruct (Nat.eqb_spec (S filled) size) as [E|E].
    + cbn [length]. rewrite IH by lia.
      replace (filled + S n + (size - 1)) with (0 + n + (size - 1) + 1 * size)
        by lia.
      rewrite Nat.div_add by lia. lia.
    + rewrite IH by lia. f_equal. lia.
Qed.

(** X1: for a positive [size], the chunks of [_chunked ids size] are
    consecutive pieces of [ids] of 1 to [size] elements, all but the last
    of exactly [size], and there are [ceil(len(ids) / size)] of them. *)
Theorem chunked_any_size (A : Type) (ids : list A) (size : nat) :
  0 < size ->
  let chunks := _chunked ids size in
  concat chunks = ids
  /\ Forall (fun c => 0 < length c <= size) chunks
  /\ (forall pre last, chunks = pre ++ [last] ->
                       Forall (fun c => length c = size) pre)
  /\ length chunks = (length ids + (size - 1)) / size.
Proof.
  intros Hs. unfold _chunked; cbv zeta. repeat split.
  - apply chunked_loop_concat.
  - apply chunked_loop_bounds; simpl; lia.
  - intros pre last E. apply full_but_last_snoc with (last := last).
    rewrite <- E. apply chunked_loop_full; simpl; lia.
  - rewrite <- (length_map (@length A)), chunked_loop_sizes.
    now rewrite chunk_sizes_length.
Qed.

Lemma chunked_seven_by_three :
  length (_chunked [1; 2; 3; 4; 5; 6; 7] 3) = 3.
Proof.
  exact (proj2 (proj2 (proj2
    (chunked_any_size nat [1; 2; 3; 4; 5; 6; 7] 3 (le_n_S _ _ (le_0_n 2)))))).
Defined.

Lemma chunked_loop_zero (A : Type) (chunk it : list A) :
  chunked_loop 0 chunk it
  = match chunk ++ it with [] => [] | _ => [chunk ++ it] end.
Proof.
  revert chunk; induction it as [|x it IH]; intros chunk.
  - rewrite app_nil_r. reflexivity.
  - cbn [chunked_loop]. rewrite length_snoc. cbn [Nat.eqb].
    rewrite IH, <- app_assoc. reflexivity.
Qed.

(** X2: with [size] 0 the test [len(chunk) == size] never holds after an
    [append], so [_chunked] does not split: it yields the whole input as
    one chunk, and nothing for an empty input. *)
Theorem chunked_size_zero (A : Type) (ids : list A) :
  _chunked ids 0 = match ids with [] => [] | _ => [ids] end.
Proof. unfold _chunked. now rewrite chunked_loop_zero. Qed.

(** ** [fetch_subscriptions] *)

Lemma append_items_kept (subscriptions : list Subscription)
  (items : list SubscriptionItem) :
  append_items subscriptions items = subscriptions ++ kept_items items.
Proof.
  revert subscriptions; induction items as [|item items IH];
    intros subscriptions; simpl.
  - now rewrite app_nil_r.
  - destruct (subscription_of_item item) as [s|]; rewrite IH; simpl; auto.
    now rewrite <- app_assoc.
Qed.

Lemma fetch_subscriptions_loop_pages (request : SubscriptionsRequest) :
  forall subscriptions,
    fetch_subscriptions_loop request subscriptions
    = (pages <- all_pages request ;;
       Ok (subscriptions ++ kept_items (concat pages))).
Proof.
  revert request. fix IH 1.
  intros [[[items [next|]]|e]] subscriptions; cbn [fetch_subscriptions_loop
    all_pages].
  - rewrite IH, append_items_kept.
    destruct (all_pages next) as [pages|e]; cbn [bind concat]; auto.
    unfold kept_items. now rewrite flat_map_app, app_assoc.
  - rewrite append_items_kept. cbn [bind concat].
    now rewrite app_nil_r.
  - reflexivity.
Qed.


Lemma subscription_of_item_wf (item : SubscriptionItem) (s : Subscription) :
  subscription_of_item item = Some s ->
  channel_id s <> []
  /\ channel_url s = py "https://www.youtube.com/channel/" ++ channel_id s.
Proof.
  unfold subscription_of_item.
  destruct (channelId _) as [[|c cid]|]; try discriminate.
  intros [= <-]. simpl. split; [discriminate | reflexivity].
Qed.

Lemma kept_items_wf (items : list SubscriptionItem) :
  Forall (fun s =>
            channel_id s <> []
            /\ channel_url s
               = py "https://www.youtube.com/channel/" ++ channel_id s)
         (kept_items items).
Proof.
  unfold kept_items. apply Forall_forall. intros s Hs.
  apply in_flat_map in Hs as (item & _ & Hs).
  destruct (subscription_of_item item) as [s'|] eqn:E; [|destruct Hs].
  destruct Hs as [<-|[]]. now apply subscription_of_item_wf in E.
Qed.

(** X4: every subscription that [fetch_subscriptions] returns has a
    channel id that is not empty, and its URL is
    [https://www.youtube.com/channel/] followed by that id. *)
Theorem fetch_subscriptions_wf (youtube : Youtube)
  (subscriptions : list Subscription) :
  fetch_subscriptions youtube = Ok subscriptions ->
  Forall (fun s =>
            channel_id s <> []
            /\ channel_url s
               = py "https://www.youtube.com/channel/" ++ channel_id s)
         subscriptions.
Proof.
  unfold fetch_subscriptions. rewrite fetch_subscriptions_loop_pages.
  destruct (all_pages (subscriptions_list youtube)) as [pages|e];
    [|discriminate].
  intros [= <-]. apply kept_items_wf.
Qed.

Lemma fetch_subscriptions_wf_one_page :
  Forall (fun s =>
            channel_id s <> []
            /\ channel_url s
               = py "https://www.youtube.com/channel/" ++ channel_id s)
         [foo_channel].
Proof.
  exact (fetch_subscriptions_wf (one_page []) [foo_channel] eq_refl).
Defined.

(** ** [fetch_channel_topics] *)

Lemma fetch_channel_topics_loop_outcome (youtube : Youtube)
  (batches : list (list str)) (topics : dict (list str)) :
  match fetch_channel_topics_loop youtube batches topics with
  | Ok _ =>
      forall batch, In batch batches ->
        exists items,
          channels_list_execute youtube (join (py ",") batch) = Ok items
  | Raise e =>
      exists before batch after,
        batches = before ++ batch :: after
        /\ channels_list_execute youtube (join (py ",") batch) = Raise e
        /\ forall b, In b before ->
             exists items,
               channels_list_execute youtube (join (py ",") b) = Ok items
  end.
Proof.
  revert topics; induction batches as [|batch batches IH]; intros topics.
  - simpl. intros batch [].
  - cbn [fetch_channel_topics_loop].
    destruct (channels_list_execute youtube (join (py ",") batch))
      as [items|e] eqn:E; cbn [bind].
    + specialize (IH (fold_left record_topics (or_default items []) topics)).
      destruct (fetch_channel_topics_loop youtube batches _) as [t|e].
      * intros b [<-|Hb]; [now exists items | now apply IH].
      * destruct IH as (before & b & after & -> & Hb & Hbefore).
        exists (batch :: before), b, after. repeat split; auto.
        intros b' [<-|Hb']; [now exists items | now apply Hbefore].
    + exists [], batch, batches. repeat split; auto. intros b [].
Qed.

(** X5: [fetch_channel_topics] asks for the batches of [_chunked] one
    after the other; it returns a mapping exactly when every request
    returns, and otherwise raises what the first failing request raises,
    the requests after it not being made. *)
Theorem fetch_channel_topics_outcome (youtube : Youtube)
  (channel_ids : list str) :
  match fetch_channel_topics youtube channel_ids with
  | Ok _ =>
      forall batch, In batch (_chunked channel_ids 50) ->
        exists items,
          channels_list_execute youtube (join (py ",") batch) = Ok items
  | Raise e =>
      exists before batch after,
        _chunked channel_ids 50 = before ++ batch :: after
        /\ channels_list_execute youtube (join (py ",") batch) = Raise e
        /\ forall b, In b before ->
             exists items,
               channels_list_execute youtube (join (py ",") b) = Ok items
  end.
Proof. apply fetch_channel_topics_loop_outcome. Qed.

Lemma dict_set_keys_nodup {V} (d : dict V) (k : str) (v : V) :
  NoDup (dict_keys d) -> NoDup (dict_keys (dict_set d k v)).
Proof.
  intros Hnd. destruct (dict_get d k) as [v0|] eqn:E.
  - now erewrite dict_keys_set_present by exact E.
  - rewrite dict_keys_set_absent by exact E.
    apply NoDup_app; auto.
    + repeat constructor. simpl; tauto.
    + intros a Ha [<-|[]]. now apply dict_get_None in E.
Qed.

Lemma dict_set_keys_In {V} (d : dict V) (k k' : str) (v : V) :
  In k' (dict_keys (dict_set d k v)) -> k' = k \/ In k' (dict_keys d).
Proof.
  destruct (dict_get d k) as [v0|] eqn:E.
  - erewrite dict_keys_set_present by exact E. auto.
  - rewrite dict_keys_set_absent by exact E.
    intros H. apply in_app_or in H as [H|[<-|[]]]; auto.
Qed.

Lemma record_topics_keys (topics : dict (list str)) (item : ChannelItem) :
  NoDup (dict_keys topics) /\ Forall (fun k => k <> []) (dict_keys topics) ->
  NoDup (dict_keys (record_topics topics item))
  /\ Forall (fun k => k <> []) (dict_keys (record_topics topics item)).
Proof.
  intros [Hnd Hne]. unfold record_topics.
  destruct (item_id item) as [[|c cid]|]; auto. split.
  - now apply dict_set_keys_nodup.
  - apply Forall_forall. intros k Hk.
    apply dict_set_keys_In in Hk as [->|Hk]; [discriminate|].
    now apply (proj1 (Forall_forall _ _) Hne).
Qed.

Lemma fold_record_topics_keys (items : list ChannelItem)
  (topics : dict (list str)) :
  NoDup (dict_keys topics) /\ Forall (fun k => k <> []) (dict_keys topics) ->
  NoDup (dict_keys (fold_left record_topics items topics))
  /\ Forall (fun k => k <> [])
            (dict_keys (fold_left record_topics items topics)).
Proof.
  revert topics; induction items as [|item items IH]; intros topics H;
    simpl; auto.
  apply IH. now apply record_topics_keys.
Qed.

Lemma fetch_channel_topics_loop_keys (youtube : Youtube)
  (batches : list (list str)) (topics result_topics : dict (list str)) :
  fetch_channel_topics_loop youtube batches topics = Ok result_topics ->
  NoDup (dict_keys topics) /\ Forall (fun k => k <> []) (dict_keys topics) ->
  NoDup (dict_keys result_topics)
  /\ Forall (fun k => k <> []) (dict_keys result_topics).
Proof.
  revert topics; induction batches as [|batch batches IH]; intros topics.
  - now intros [= <-].
  - cbn [fetch_channel_topics_loop].
    destruct (channels_list_execute youtube _) as [items|e]; cbn [bind];
      [|discriminate].
    intros H Hk. apply (IH _ H). now apply fold_record_topics_keys.
Qed.

(** X6: in the mapping that [fetch_channel_topics] returns no channel id
    occurs twice and none is empty. *)
Theorem fetch_channel_topics_keys (youtube : Youtube)
  (channel_ids : list str) (topics : dict (list str)) :
  fetch_channel_topics youtube channel_ids = Ok topics ->
  NoDup (dict_keys topics) /\ Forall (fun k => k <> []) (dict_keys topics).
Proof.
  intros H. apply (fetch_channel_topics_loop_keys _ _ _ _ H).
  split; constructor.
Qed.

Lemma fetch_channel_topics_keys_one_page :
  NoDup (dict_keys [(py "C1", [py "https://en.wikipedia.org/wiki/Music"])])
  /\ Forall (fun k => k <> [])
            (dict_keys [(py "C1", [py "https://en.wikipedia.org/wiki/Music"])]).
Proof.
  exact (fetch_channel_topics_keys
           (one_page [py "https://en.wikipedia.org/wiki/Music"])
           [py "C1"] _ eq_refl).
Defined.

Lemma record_topics_other (topics : dict (list str)) (item : ChannelItem)
  (k : str) :
  item_id item <> Some k ->
  dict_get (record_topics topics item) k = dict_get topics k.
Proof.
  intros H. unfold record_topics.
  destruct (item_id item) as [[|c cid]|]; auto.
  apply dict_get_set_other. congruence.
Qed.

Lemma fold_record_topics_other (items : list ChannelItem)
  (topics : dict (list str)) (k : str) :
  (forall item, In item items -> item_id item <> Some k) ->
  dict_get (fold_left record_topics items topics) k = dict_get topics k.
Proof.
  revert topics; induction items as [|item items IH]; intros topics H;
    simpl; auto.
  rewrite IH by (intros; apply H; now right).
  apply record_topics_other. apply H. now left.
Qed.

(** X7: when the items of a response are merged into the mapping, a
    channel gets the topic list of the last item that carries its id (the
    empty list when that item has no topic details), and a channel that no
    item carries keeps the entry it had, or stays without one. *)
Theorem record_topics_last_wins (topics : dict (list str))
  (before after : list ChannelItem) (item : ChannelItem) (k : str) :
  k <> [] ->
  (item_id item = Some k ->
   (forall later, In later after -> item_id later <> Some k) ->
   dict_get (fold_left record_topics (before ++ item :: after) topics) k
   = Some (item_topics item))
  /\ ((forall other, In other (before ++ item :: after) ->
                     item_id other <> Some k) ->
      dict_get (fold_left record_topics (before ++ item :: after) topics) k
      = dict_get topics k).
Proof.
  intros Hk. split.
  - intros Hid Hafter. rewrite fold_left_app. cbn [fold_left].
    rewrite fold_record_topics_other by exact Hafter.
    unfold record_topics. rewrite Hid.
    destruct k; [congruence|]. apply dict_get_set_same.
  - apply fold_record_topics_other.
Qed.

Lemma record_topics_last_wins_twice :
  dict_get
    (fold_left record_topics
       ([ {| item_id := Some (py "C1");
             item_topicDetails := Some {| topicCategories := Some [py "a"] |}
          |} ]
        ++ {| item_id := Some (py "C1"); item_topicDetails := None |} :: [])
       [])
    (py "C1")
  = Some [].
Proof.
  refine (proj1 (record_topics_last_wins [] _ []
                   {| item_id := Some (py "C1"); item_topicDetails := None |}
                   (py "C1") _) eq_refl _).
  - discriminate.
  - intros later [].
Defined.

(** ** The [id] parameter of a batch *)

Lemma split_no_sep (sep : char) (s : str) :
  contains sep s = false -> split sep s = [s].
Proof.
  induction s as [|c s IH]; simpl; auto.
  rewrite orb_false_iff, N.eqb_sym. intros [-> Hs]. now rewrite IH.
Qed.

Lemma split_app_sep (sep : char) (a b : str) :
  contains sep a = false -> split sep (a ++ sep :: b) = a :: split sep b.
Proof.
  induction a as [|c a IH]; simpl.
  - intros _. now rewrite N.eqb_refl.
  - rewrite orb_false_iff, N.eqb_sym. intros [-> Ha]. now rewrite IH.
Qed.

Lemma split_join (sep : char) (pieces : list str) :
  pieces <> [] ->
  Forall (fun piece => contains sep piece = false) pieces ->
  split sep (join [sep] pieces) = pieces.
Proof.
  induction pieces as [|piece rest IH]; [congruence|]. intros _ H.
  inversion H as [|? ? Hp Hrest]; subst.
  destruct rest as [|piece' rest].
  - simpl. now apply split_no_sep.
  - cbn [join]. cbn [app]. rewrite split_app_sep by exact Hp.
    f_equal. apply IH; [discriminate | exact Hrest].
Qed.

(** X8: when no channel id holds a comma, every batch that
    [fetch_channel_topics] asks for is read back from its [id] parameter by
    splitting it at the commas: the parameter tells the ids of the batch
    and their order. *)
Theorem batch_ids_read_back (channel_ids : list str) :
  Forall (fun id => contains (ord ",") id = false) channel_ids ->
  Forall (fun batch => split (ord ",") (join (py ",") batch) = batch)
         (_chunked channel_ids 50).
Proof.
  intros Hids. apply Forall_forall. intros batch Hb.
  apply (split_join (ord ",")).
  - pose proof (chunked_loop_bounds str 50 [] channel_ids
                  (le_n_S _ _ (le_0_n _))) as Hbounds.
    apply (proj1 (Forall_forall _ _) Hbounds) in Hb.
    destruct batch; [simpl in Hb; lia | discriminate].
  - apply Forall_forall. intros id Hid.
    apply (proj1 (Forall_forall _ _) Hids).
    pose proof (chunked_loop_concat str 50 [] channel_ids) as E.
    cbn [app] in E. rewrite <- E.
    apply in_concat. exists batch. split; auto.
Qed.

Lemma batch_ids_read_back_two :
  Forall (fun batch => split (ord ",") (join (py ",") batch) = batch)
         (_chunked [py "UCa"; py "UCb"] 50).
Proof.
  apply (batch_ids_read_back [py "UCa"; py "UCb"]).
  repeat constructor.
Defined.

(** ** The groups of [categorize_subscriptions] *)

Lemma defaultdict_item_append {A} (d : dict (list A)) (k genre : str) (x : A) :
  defaultdict_item (defaultdict_append d k x) genre
  = defaultdict_item d genre ++ (if str_eqb k genre then [x] else []).
Proof.
  unfold defaultdict_item, defaultdict_append.
  destruct (str_eqb k genre) eqn:E.
  - apply str_eqb_eq in E. subst genre. rewrite dict_get_set_same.
    now destruct (dict_get d k).
  - apply str_eqb_neq in E. rewrite dict_get_set_other by congruence.
    now rewrite app_nil_r.
Qed.

Lemma categorize_loop_groups (rt : Runtime) (topics : dict (list str))
  (subs : list Subscription) (d g : dict (list Subscription)) (genre : str) :
  categorize_loop rt subs topics d = Ok g ->
  defaultdict_item g genre
  = defaultdict_item d genre ++ filter (has_genre rt topics genre) subs.
Proof.
  revert d; induction subs as [|s subs IH]; intros d; cbn [categorize_loop].
  - intros [= <-]. simpl. now rewrite app_nil_r.
  - cbn [filter]. unfold has_genre at 1.
    destruct (genre_of rt topics s) as [k|e]; cbn [bind]; [|discriminate].
    intros H. rewrite (IH _ H), defaultdict_item_append, <- app_assoc.
    now destruct (str_eqb k genre).
Qed.

(** X9: in the grouping that [categorize_subscriptions] returns, the group
    of a genre is the list of the input subscriptions of that genre, in
    the order of the input. *)
Theorem categorize_keeps_input_order (rt : Runtime)
  (subscriptions : list Subscription) (topics : dict (list str))
  (grouped : dict (list Subscription)) :
  categorize_subscriptions rt subscriptions topics = Ok grouped ->
  forall genre,
    defaultdict_item grouped genre
    = filter (has_genre rt topics genre) subscriptions.
Proof.
  intros H genre.
  now rewrite (categorize_loop_groups _ _ _ _ _ genre H).
Qed.

Lemma categorize_keeps_input_order_foo :
  defaultdict_item [(py "Uncategorized", [foo_channel; foo_channel])]
    (py "Uncategorized")
  = filter (has_genre ascii_runtime [] (py "Uncategorized"))
      [foo_channel; foo_channel].
Proof.
  exact (categorize_keeps_input_order ascii_runtime
           [foo_channel; foo_channel] [] _ eq_refl (py "Uncategorized")).
Defined.

Lemma defaultdict_append_nonempty {A} (d : dict (list A)) (k : str) (x : A) :
  Forall (fun entry => snd entry <> []) d ->
  Forall (fun entry => snd entry <> []) (defaultdict_append d k x).
Proof.
  induction d as [|[k' l] d IH]; intros H.
  - repeat constructor. discriminate.
  - rewrite defaultdict_append_cons. inversion H as [|? ? Hl Hd]; subst.
    destruct (str_eqb k' k); constructor; auto.
    simpl. destruct l; discriminate.
Qed.

Lemma categorize_loop_nonempty (rt : Runtime) (topics : dict (list str))
  (subs : list Subscription) (d g : dict (list Subscription)) :
  categorize_loop rt subs topics d = Ok g ->
  Forall (fun entry => snd entry <> []) d ->
  Forall (fun entry => snd entry <> []) g.
Proof.
  revert d; induction subs as [|s subs IH]; intros d; cbn [categorize_loop].
  - now intros [= <-].
  - destruct (genre_of rt topics s) as [k|e]; cbn [bind]; [|discriminate].
    intros H Hd. apply (IH _ H). now apply defaultdict_append_nonempty.
Qed.

Lemma concat_nonempty_length {A} (l : list (list A)) :
  Forall (fun x => x <> []) l -> length l <= length (concat l).
Proof.
  induction 1 as [|x l Hx _ IH]; simpl; auto.
  rewrite length_app. destruct x; [congruence|]. simpl. lia.
Qed.

(** X10: [categorize_subscriptions] makes no empty group, so the grouping
    has at most as many genres as there are subscriptions. *)
Theorem categorize_no_empty_group (rt : Runtime)
  (subscriptions : list Subscription) (topics : dict (list str))
  (grouped : dict (list Subscription)) :
  categorize_subscriptions rt subscriptions topics = Ok grouped ->
  Forall (fun entry => snd entry <> []) grouped
  /\ length grouped <= length subscriptions.
Proof.
  intros H.
  assert (Hne : Forall (fun entry => snd entry <> []) grouped)
    by (apply (categorize_loop_nonempty _ _ _ _ _ H); constructor).
  split; auto.
  pose proof (categorize_loop_values _ _ _ _ _ H) as Hperm. simpl in Hperm.
  rewrite <- (Permutation_length Hperm).
  unfold dict_values.
  rewrite <- (length_map snd grouped). apply concat_nonempty_length.
  apply Forall_map. exact Hne.
Qed.

Lemma categorize_no_empty_group_foo :
  Forall (fun entry : str * list Subscription => snd entry <> [])
         [(py "Uncategorized", [foo_channel])]
  /\ length [(py "Uncategorized", [foo_channel])] <= length [foo_channel].
Proof.
  exact (categorize_no_empty_group ascii_runtime [foo_channel] [] _ eq_refl).
Defined.

(** ** The document *)

Lemma lstrip_chars_app_keep (chars : char -> bool) (a b : str) (c : char) :
  chars c = false ->
  exists x, lstrip_chars chars (a ++ c :: b) = x ++ c :: b.
Proof.
  intros Hc. induction a as [|y a (x & IH)]; simpl.
  - rewrite Hc. now exists [].
  - destruct (chars y); [now exists x | now exists (y :: a)].
Qed.

Lemma strip_keeps_prefix (first last : char) (mid t : str) :
  isspace first = false -> isspace last = false ->
  exists body,
    strip ((first :: mid ++ [last]) ++ t) = (first :: mid ++ [last]) ++ body.
Proof.
  intros Hf Hl. unfold strip, rstrip_chars.
  cbn [app lstrip_chars]. rewrite Hf.
  change (first :: (mid ++ [last]) ++ t)
    with ((first :: mid ++ [last]) ++ t).
  rewrite rev_app_distr.
  change (first :: mid ++ [last]) with ([first] ++ mid ++ [last]).
  rewrite !rev_app_distr. cbn [rev app].
  destruct (lstrip_chars_app_keep isspace (rev t) (rev mid ++ [first]) last Hl)
    as (x & ->).
  exists (rev x). rewrite rev_app_distr. cbn [rev].
  rewrite !rev_app_distr, rev_involutive. cbn [rev app].
  now rewrite <- !app_assoc.
Qed.

(** X11: the document starts with the heading
    [# YouTube Subscriptions by Genre] and ends with one newline, before
    which there is no white space: no blank line or space is left at its
    end, whatever the grouping holds. *)
Theorem render_markdown_normalized (rt : Runtime)
  (grouped : dict (list Subscription)) :
  exists body,
    render_markdown rt grouped
    = py "# YouTube Subscriptions by Genre" ++ body ++ [LF]
    /\ forall c,
        hd_error (rev (py "# YouTube Subscriptions by Genre" ++ body))
        = Some c ->
        isspace c = false.
Proof.
  unfold render_markdown. rewrite render_lines_sections.
  set (sections := flat_map _ _).
  assert (Hj : join [LF] ([py "# YouTube Subscriptions by Genre"; []]
                          ++ sections)
               = py "# YouTube Subscriptions by Genre"
                 ++ [LF] ++ join [LF] ([] :: sections)) by reflexivity.
  rewrite Hj.
  destruct (strip_keeps_prefix (ord "#") (ord "e")
              (py " YouTube Subscriptions by Genr")
              ([LF] ++ join [LF] ([] :: sections)) eq_refl eq_refl)
    as (body & Hb).
  change (ord "#" :: py " YouTube Subscriptions by Genr" ++ [ord "e"])
    with (py "# YouTube Subscriptions by Genre") in Hb.
  exists body. split.
  - rewrite Hb. now rewrite <- app_assoc.
  - rewrite <- Hb.
    destruct (strip_split (py "# YouTube Subscriptions by Genre"
                           ++ [LF] ++ join [LF] ([] :: sections)))
      as (_ & _ & _ & _ & _ & _ & H).
    exact H.
Qed.

Lemma contains_app (c : char) (a b : str) :
  contains c (a ++ b) = contains c a || contains c b.
Proof. apply existsb_app. Qed.

Lemma replace_removes (old new : char) (s : str) :
  new <> old -> contains old (replace old [new] s) = false.
Proof.
  intros H. rewrite replace_one. induction s as [|c s IH]; simpl; auto.
  rewrite IH, orb_false_r. destruct (N.eqb_spec c old) as [->|Hc].
  - apply N.eqb_neq. congruence.
  - apply N.eqb_neq. congruence.
Qed.

(** X12: the line of a subscription holds no newline when its title and
    its URL hold none: the newlines of a description never break the list
    item. *)
Theorem render_subscription_one_line (s : Subscription) :
  contains LF (title s) = false ->
  contains LF (channel_url s) = false ->
  contains LF (render_subscription s) = false.
Proof.
  intros Ht Hu. unfold render_subscription.
  pose proof (replace_removes LF (ord " ") (strip (description s))) as Hd.
  change [ord " "] with (py " ") in Hd.
  destruct (replace LF (py " ") (strip (description s))) as [|c d];
    rewrite !contains_app, Ht, Hu, ?Hd by discriminate; reflexivity.
Qed.

Lemma render_subscription_one_line_foo :
  contains LF (render_subscription foo_channel) = false.
Proof.
  exact (render_subscription_one_line foo_channel eq_refl eq_refl).
Defined.

Lemma sorted_unique (l1 l2 : list str) :
  StronglySorted (key_le (fun s : str => s)) l1 ->
  StronglySorted (key_le (fun s : str => s)) l2 ->
  Permutation l1 l2 -> l1 = l2.
Proof.
  intros H1; revert l2; induction H1 as [|x l1 Hs1 IH Hx];
    intros l2 H2 Hp.
  - now apply Permutation_nil in Hp.
  - destruct H2 as [|y l2 Hs2 Hy].
    + symmetry in Hp. now apply Permutation_nil in Hp.
    + assert (Exy : x = y).
      { assert (Hxin : In x (y :: l2))
          by (eapply Permutation_in; [exact Hp | now left]).
        assert (Hyin : In y (x :: l1))
          by (eapply Permutation_in; [symmetry; exact Hp | now left]).
        destruct Hxin as [->|Hxin]; auto.
        destruct Hyin as [->|Hyin]; auto.
        apply (proj1 (Forall_forall _ _) Hy) in Hxin.
        apply (proj1 (Forall_forall _ _) Hx) in Hyin.
        unfold key_le in *. now apply str_ltb_antisym. }
      subst y. f_equal. apply IH; auto.
      now apply Permutation_cons_inv in Hp.
Qed.

Lemma dict_get_perm {V} (d d' : dict V) (k : str) :
  NoDup (dict_keys d) -> Permutation d d' -> dict_get d k = dict_get d' k.
Proof.
  intros Hnd Hp.
  assert (Hnd' : NoDup (dict_keys d')).
  { eapply Permutation_NoDup; [|exact Hnd].
    unfold dict_keys. now apply Permutation_map. }
  destruct (dict_get d k) as [v|] eqn:E.
  - symmetry. apply In_dict_get; auto.
    eapply Permutation_in; [exact Hp|]. now apply dict_get_In.
  - symmetry. apply dict_get_None. apply dict_get_None in E.
    intros Hin. apply E.
    eapply Permutation_in; [|exact Hin].
    unfold dict_keys. symmetry. now apply Permutation_map.
Qed.

(** X13: the document does not depend on the order in which the genres
    were put into the grouping: two groupings with the same entries give
    the same document. *)
Theorem render_markdown_any_insertion_order (rt : Runtime)
  (grouped grouped' : dict (list Subscription)) :
  NoDup (dict_keys grouped) ->
  Permutation grouped grouped' ->
  render_markdown rt grouped = render_markdown rt grouped'.
Proof.
  intros Hnd Hp. unfold render_markdown. rewrite !render_lines_sections.
  assert (Hk : sorted (dict_keys grouped) = sorted (dict_keys grouped')).
  { apply sorted_unique; try apply (sorted_by_sorted str (fun s => s)).
    unfold sorted. rewrite !sorted_by_perm.
    unfold dict_keys. now apply Permutation_map. }
  rewrite Hk. do 4 f_equal. apply flat_map_ext. intros genre.
  unfold genre_section, defaultdict_item.
  now rewrite (dict_get_perm grouped grouped' genre Hnd Hp).
Qed.

Lemma render_markdown_any_insertion_order_two :
  render_markdown ascii_runtime
    [(py "Gaming", [foo_channel]); (py "Comedy", [])]
  = render_markdown ascii_runtime
      [(py "Comedy", []); (py "Gaming", [foo_channel])].
Proof.
  apply render_markdown_any_insertion_order.
  - repeat constructor; simpl; intuition discriminate.
  - apply perm_swap.
Defined.

(** ** [main] and the errors that are not API errors *)

(** X15: [main] catches the [HttpError] of the two fetches only: what
    [categorize_subscriptions] raises (the [ValueError] of a topic URL that
    [urlparse] rejects) is raised by [main] as it is, not as [SystemExit],
    and nothing is written. *)
Theorem main_categorize_error (rt : Runtime) (output : str)
  (youtube : Youtube) (subscriptions : list Subscription)
  (topics : dict (list str)) (e : exn) :
  fetch_subscriptions youtube = Ok subscriptions ->
  fetch_channel_topics youtube (List.map channel_id subscriptions)
  = Ok topics ->
  categorize_subscriptions rt subscriptions topics = Raise e ->
  main rt output youtube = ([], Raise e)
  /\ exists s, In s subscriptions /\ genre_of rt topics s = Raise e.
Proof.
  intros Hs Ht Hc. split.
  - unfold main. rewrite Hs. cbn [bind]. rewrite Ht. cbn [bind].
    now rewrite Hc.
  - now apply categorize_loop_raises in Hc.
Qed.

Lemma main_categorize_error_open_bracket :
  main ascii_runtime (py "subscriptions_memo.md") (one_page [py "//["])
  = ([], Raise ValueError).
Proof.
  exact (proj1 (main_categorize_error ascii_runtime
                  (py "subscriptions_memo.md") (one_page [py "//["])
                  [foo_channel] [(py "C1", [py "//["])] ValueError
                  eq_refl eq_refl eq_refl)).
Defined.

(** ** The query and the fragment of a topic URL *)

Lemma partition_app_some (sep : char) (a x before after : str) :
  partition sep a = Some (before, after) ->
  partition sep (a ++ x) = Some (before, after ++ x).
Proof.
  revert before; induction a as [|c a IH]; intros before; simpl;
    [discriminate|].
  destruct (N.eqb c sep); [now intros [= <- <-]|].
  destruct (partition sep a) as [[b q]|]; [|discriminate].
  intros [= <- <-]. now rewrite (IH b eq_refl).
Qed.

Lemma partition_app_none (sep : char) (a x : str) :
  partition sep a = None ->
  partition sep (a ++ x)
  = match partition sep x with
    | Some (before, after) => Some (a ++ before, after)
    | None => None
    end.
Proof.
  induction a as [|c a IH]; simpl.
  - intros _. now destruct (partition sep x) as [[? ?]|].
  - destruct (N.eqb c sep); [discriminate|].
    destruct (partition sep a) as [[b q]|]; [discriminate|].
    intros _. rewrite IH by reflexivity.
    now destruct (partition sep x) as [[? ?]|].
Qed.

Lemma lstrip_chars_app_stop (chars : char -> bool) (a b : str) (c : char) :
  chars c = false ->
  lstrip_chars chars (a ++ c :: b) = lstrip_chars chars a ++ c :: b.
Proof.
  intros Hc. induction a as [|y a IH]; simpl.
  - now rewrite Hc.
  - now destruct (chars y).
Qed.

Lemma replace_nil_app_cons (old c : char) (a b : str) :
  c <> old ->
  replace old [] (a ++ c :: b) = replace old [] a ++ c :: replace old [] b.
Proof.
  intros Hc. unfold replace. rewrite flat_map_app. cbn [flat_map].
  apply N.eqb_neq in Hc. now rewrite Hc.
Qed.

Lemma take_scheme_tail (a b : str) (d : char) :
  scheme_char d = false -> d <> ord ":" ->
  take_scheme (a ++ d :: b)
  = (fst (take_scheme a), snd (take_scheme a) ++ d :: b).
Proof.
  intros Hd Hcolon. unfold take_scheme.
  destruct (partition (ord ":") a) as [[before after]|] eqn:E.
  - rewrite (partition_app_some _ _ (d :: b) _ _ E).
    destruct before as [|c before]; auto.
    now destruct (isascii_alpha c && forallb scheme_char (c :: before)).
  - rewrite (partition_app_none _ _ (d :: b) E). cbn [partition].
    apply N.eqb_neq in Hcolon. rewrite Hcolon.
    destruct (partition (ord ":") b) as [[before after]|]; auto.
    destruct (a ++ d :: before) as [|c l] eqn:El; auto.
    assert (Hf : forallb scheme_char (c :: l) = false).
    { rewrite <- El, forallb_app. cbn [forallb]. rewrite Hd.
      now rewrite andb_false_r. }
    rewrite Hf, andb_false_r. reflexivity.
Qed.

Lemma firstn_two_tail (r b : str) (d : char) :
  d <> ord "/" ->
  str_eqb (firstn 2 (r ++ d :: b)) (py "//") = str_eqb (firstn 2 r) (py "//").
Proof.
  intros Hd. apply N.eqb_neq in Hd.
  change (ord "/") with 47%N in Hd. change (py "//") with [47%N; 47%N].
  destruct r as [|x [|y r]]; cbn [app firstn str_eqb]; auto.
  - now rewrite Hd.
  - rewrite Hd, andb_false_l, andb_false_r. reflexivity.
Qed.

Lemma span_until_tail (stop : char -> bool) (a b : str) (d : char) :
  stop d = true ->
  span_until stop (a ++ d :: b)
  = (fst (span_until stop a), snd (span_until stop a) ++ d :: b).
Proof.
  intros Hd. induction a as [|c a IH]; simpl.
  - now rewrite Hd.
  - destruct (stop c); auto. rewrite IH.
    now destruct (span_until stop a).
Qed.

Lemma span_until_incl_snd (stop : char -> bool) (s : str) :
  incl (snd (span_until stop s)) s.
Proof.
  induction s as [|c s IH]; simpl; [apply incl_refl|].
  destruct (stop c); simpl; [apply incl_refl|].
  destruct (span_until stop s) as [before rest]; simpl in *.
  now apply incl_tl.
Qed.

Lemma splitnetloc_tail (r b : str) (d : char) :
  str_eqb (firstn 2 r) (py "//") = true ->
  d = ord "?" \/ d = ord "#" ->
  _splitnetloc (r ++ d :: b)
  = (fst (_splitnetloc r), snd (_splitnetloc r) ++ d :: b).
Proof.
  intros Hr Hd. unfold _splitnetloc.
  change (py "//") with [47%N; 47%N] in Hr.
  destruct r as [|x [|y r]]; cbn [firstn str_eqb] in Hr;
    rewrite ?andb_false_r in Hr; try discriminate. cbn [app skipn].
  apply span_until_tail. destruct Hd as [->| ->]; reflexivity.
Qed.

Lemma urlsplit_tail (rt : Runtime) (u tail : str) (d : char) :
  d = ord "?" \/ d = ord "#" ->
  contains (ord "?") u = false ->
  contains (ord "#") u = false ->
  match urlsplit rt u with
  | Ok r =>
      exists r',
        urlsplit rt (u ++ d :: tail) = Ok r'
        /\ split_scheme r' = split_scheme r
        /\ split_path r' = split_path r
  | Raise e => urlsplit rt (u ++ d :: tail) = Raise e
  end.
Proof.
  intros Hd Hq Hh. unfold urlsplit.
  assert (Hc0 : c0_control_or_space d = false)
    by (destruct Hd as [->| ->]; reflexivity).
  rewrite (lstrip_chars_app_stop _ _ _ _ Hc0).
  rewrite !replace_nil_app_cons
    by (destruct Hd as [->| ->]; discriminate).
  set (cu := replace LF [] (replace CR [] (replace TAB []
               (lstrip_chars c0_control_or_space u)))).
  set (ct := replace LF [] (replace CR [] (replace TAB [] tail))).
  assert (Hcu : incl cu u).
  { unfold cu. repeat (eapply incl_tran; [apply replace_nil_incl|]).
    apply lstrip_chars_incl. }
  rewrite take_scheme_tail
    by (destruct Hd as [->| ->]; first [reflexivity | discriminate]).
  pose proof (take_scheme_incl cu) as Hr.
  destruct (take_scheme cu) as [sch r]. cbn [fst snd] in *.
  assert (Hru : incl r u) by (eapply incl_tran; eauto).
  rewrite firstn_two_tail by (destruct Hd as [->| ->]; discriminate).
  destruct (str_eqb (firstn 2 r) (py "//")) eqn:Eslash.
  - rewrite (splitnetloc_tail _ _ _ Eslash Hd).
    pose proof (span_until_incl_snd
                  (fun c => (N.eqb c (ord "/") || N.eqb c (ord "?")
                             || N.eqb c (ord "#"))%bool) (skipn 2 r)) as Hrest.
    fold (_splitnetloc r) in Hrest.
    destruct (_splitnetloc r) as [nl rest]. cbn [fst snd] in *.
    assert (Hrestu : incl rest u).
    { eapply incl_tran; [exact Hrest|].
      eapply incl_tran; [apply skipn_incl | exact Hru]. }
    destruct (check_brackets rt nl) as [[]|e]; cbn [bind]; auto.
    pose proof (contains_incl _ _ _ Hrestu Hq) as Hq'.
    pose proof (contains_incl _ _ _ Hrestu Hh) as Hh'.
    apply partition_None in Hq', Hh'.
    rewrite Hh', Hq'.
    destruct (_checknetloc rt nl) as [[]|e]; cbn [bind].
    + destruct Hd as [->| ->].
      * rewrite (partition_app_none _ _ _ Hh'). cbn [partition].
        change (N.eqb (ord "?") (ord "#")) with false. cbv iota.
        destruct (partition (ord "#") ct) as [[before after]|];
          rewrite (partition_app_none _ _ _ Hq'); cbn [partition];
          rewrite N.eqb_refl, app_nil_r; eexists; repeat split.
      * rewrite (partition_app_none _ _ _ Hh'). cbn [partition].
        rewrite N.eqb_refl, app_nil_r, Hq'. eexists; repeat split.
    + destruct Hd as [->| ->].
      * rewrite (partition_app_none _ _ _ Hh'). cbn [partition].
        change (N.eqb (ord "?") (ord "#")) with false. cbv iota.
        destruct (partition (ord "#") ct) as [[before after]|];
          rewrite (partition_app_none _ _ _ Hq'); cbn [partition];
          rewrite ?N.eqb_refl, ?app_nil_r; reflexivity.
      * rewrite (partition_app_none _ _ _ Hh'). cbn [partition].
        rewrite ?N.eqb_refl, ?app_nil_r, ?Hq'. reflexivity.
  - cbn [bind].
    pose proof (contains_incl _ _ _ Hru Hq) as Hq'.
    pose proof (contains_incl _ _ _ Hru Hh) as Hh'.
    apply partition_None in Hq', Hh'.
    rewrite Hh', Hq'. cbn [_checknetloc bind].
    destruct Hd as [->| ->].
    + rewrite (partition_app_none _ _ _ Hh'). cbn [partition].
      change (N.eqb (ord "?") (ord "#")) with false. cbv iota.
      destruct (partition (ord "#") ct) as [[before after]|];
        rewrite (partition_app_none _ _ _ Hq'); cbn [partition];
        rewrite N.eqb_refl, app_nil_r; eexists; repeat split.
    + rewrite (partition_app_none _ _ _ Hh'). cbn [partition].
      rewrite N.eqb_refl, app_nil_r, Hq'. eexists; repeat split.
Qed.

(** X16: what stands in a topic URL from its first [?] or [#] on, the
    query and the fragment, has no part in the label: [readable_topic]
    gives for the URL what it gives for the part before. *)
Theorem readable_topic_ignores_query_fragment (rt : Runtime)
  (topic_url tail : str) (d : char) :
  d = ord "?" \/ d = ord "#" ->
  contains (ord "?") topic_url = false ->
  contains (ord "#") topic_url = false ->
  readable_topic rt (topic_url ++ d :: tail) = readable_topic rt topic_url.
Proof.
  intros Hd Hq Hh. unfold readable_topic, urlparse.
  pose proof (urlsplit_tail rt topic_url tail d Hd Hq Hh) as H.
  destruct (urlsplit rt topic_url) as [r|e].
  - destruct H as (r' & -> & Hs & Hp). cbn [bind]. rewrite Hs, Hp.
    destruct (_ && _); [destruct (_splitparams _)|]; reflexivity.
  - now rewrite H.
Qed.

Lemma readable_topic_ignores_query_fragment_music :
  readable_topic ascii_runtime
    (py "https://en.wikipedia.org/wiki/Music" ++ ord "?" :: py "action=raw#x")
  = readable_topic ascii_runtime (py "https://en.wikipedia.org/wiki/Music").
Proof.
  exact (readable_topic_ignores_query_fragment ascii_runtime
           (py "https://en.wikipedia.org/wiki/Music") (py "action=raw#x")
           (ord "?") (or_introl eq_refl) eq_refl eq_refl).
Defined.

(** ** Channels without topics *)

Lemma categorize_loop_uncategorized (rt : Runtime) (topics : dict (list str))
  (subs group : list Subscription) :
  (forall s, In s subs ->
             dict_get topics (channel_id s) = None
             \/ dict_get topics (channel_id s) = Some []) ->
  categorize_loop rt subs topics [(py "Uncategorized", group)]
  = Ok [(py "Uncategorized", group ++ subs)].
Proof.
  revert group; induction subs as [|s subs IH]; intros group H.
  - simpl. now rewrite app_nil_r.
  - cbn [categorize_loop]. unfold genre_of at 1.
    assert (Hs : dict_get topics (channel_id s) = None
                 \/ dict_get topics (channel_id s) = Some [])
      by (apply H; now left).
    replace (match dict_get topics (channel_id s) with
             | Some (first :: _) => readable_topic rt first
             | _ => Ok (py "Uncategorized")
             end) with (@Ok str (py "Uncategorized"))
      by (destruct Hs as [-> | ->]; reflexivity).
    cbn [bind]. rewrite defaultdict_append_cons, str_eqb_refl.
    rewrite IH by (intros; apply H; now right).
    now rewrite <- app_assoc.
Qed.

(** X17: when no subscription has a topic URL (its channel is not in the
    topic map, or has an empty list there), the grouping is the one group
    [Uncategorized] with all subscriptions in the order of the input; it
    is empty for an empty input. *)
Theorem categorize_without_topics (rt : Runtime)
  (subscriptions : list Subscription) (topics : dict (list str)) :
  (forall s, In s subscriptions ->
             dict_get topics (channel_id s) = None
             \/ dict_get topics (channel_id s) = Some []) ->
  categorize_subscriptions rt subscriptions topics
  = Ok match subscriptions with
       | [] => []
       | _ => [(py "Uncategorized", subscriptions)]
       end.
Proof.
  intros H. unfold categorize_subscriptions.
  destruct subscriptions as [|s subs]; [reflexivity|].
  cbn [categorize_loop]. unfold genre_of at 1.
  assert (Hs : dict_get topics (channel_id s) = None
               \/ dict_get topics (channel_id s) = Some [])
    by (apply H; now left).
  replace (match dict_get topics (channel_id s) with
           | Some (first :: _) => readable_topic rt first
           | _ => Ok (py "Uncategorized")
           end) with (@Ok str (py "Uncategorized"))
    by (destruct Hs as [-> | ->]; reflexivity).
  cbn [bind]. change (defaultdict_append [] (py "Uncategorized") s)
    with [(py "Uncategorized", [s])].
  now rewrite categorize_loop_uncategorized
    by (intros; apply H; now right).
Qed.

Lemma categorize_without_topics_foo :
  categorize_subscriptions ascii_runtime [foo_channel; foo_channel]
    [(py "C1", [])]
  = Ok [(py "Uncategorized", [foo_channel; foo_channel])].
Proof.
  apply (categorize_without_topics ascii_runtime [foo_channel; foo_channel]
           [(py "C1", [])]).
  intros s [<-|[<-|[]]]; right; reflexivity.
Defined.

(** ** Where the entries of the topic map come from *)

Lemma dict_set_In {V} (d : dict V) (k k' : str) (v v' : V) :
  In (k', v') (dict_set d k v) -> (k' = k /\ v' = v) \/ In (k', v') d.
Proof.
  induction d as [|[k0 v0] d IH]; simpl.
  - intros [[= <- <-]|[]]. auto.
  - destruct (str_eqb k0 k) eqn:E; simpl.
    + apply str_eqb_eq in E. subst k0.
      intros [[= <- <-]|H]; auto.
    + intros [H|H]; auto. destruct (IH H); auto.
Qed.

Lemma record_topics_In (topics : dict (list str)) (item : ChannelItem)
  (k : str) (v : list str) :
  In (k, v) (record_topics topics item) ->
  In (k, v) topics \/ (item_id item = Some k /\ v = item_topics item).
Proof.
  unfold record_topics.
  destruct (item_id item) as [[|c cid]|]; auto.
  intros H. apply dict_set_In in H as [[-> ->]|H]; auto.
Qed.

Lemma fold_record_topics_In (items : list ChannelItem)
  (topics : dict (list str)) (k : str) (v : list str) :
  In (k, v) (fold_left record_topics items topics) ->
  In (k, v) topics
  \/ exists item, In item items /\ item_id item = Some k
                  /\ v = item_topics item.
Proof.
  revert topics; induction items as [|item items IH]; intros topics;
    simpl; auto.
  intros H. destruct (IH _ H) as [H0|(it & Hin & Hid & Hv)].
  - apply record_topics_In in H0 as [H0|[Hid Hv]]; auto.
    right. exists item. auto.
  - right. exists it. auto.
Qed.

Lemma fetch_channel_topics_loop_In (youtube : Youtube)
  (batches : list (list str)) (topics result_topics : dict (list str))
  (k : str) (v : list str) :
  fetch_channel_topics_loop youtube batches topics = Ok result_topics ->
  In (k, v) result_topics ->
  In (k, v) topics
  \/ exists batch items item,
      In batch batches
      /\ channels_list_execute youtube (join (py ",") batch) = Ok items
      /\ In item (or_default items [])
      /\ item_id item = Some k /\ v = item_topics item.
Proof.
  revert topics; induction batches as [|batch batches IH]; intros topics.
  - intros [= <-]. auto.
  - cbn [fetch_channel_topics_loop].
    destruct (channels_list_execute youtube (join (py ",") batch))
      as [items|e] eqn:E; cbn [bind]; [|discriminate].
    intros H Hin.
    destruct (IH _ H Hin) as [H0|(b & its & it & Hb & He & Hit & Hid & Hv)].
    + apply fold_record_topics_In in H0 as [H0|(it & Hit & Hid & Hv)]; auto.
      right. exists batch, items, it. repeat split; auto. now left.
    + right. exists b, its, it. repeat split; auto. now right.
Qed.

(** X18: every entry of the mapping that [fetch_channel_topics] returns
    is read from an item of the response to one of its requests: the id of
    the item and its topic list; a channel that no response carries has no
    entry. *)
Theorem fetch_channel_topics_entries (youtube : Youtube)
  (channel_ids : list str) (topics : dict (list str)) :
  fetch_channel_topics youtube channel_ids = Ok topics ->
  forall k v,
    In (k, v) topics ->
    exists batch items item,
      In batch (_chunked channel_ids 50)
      /\ channels_list_execute youtube (join (py ",") batch) = Ok items
      /\ In item (or_default items [])
      /\ item_id item = Some k /\ v = item_topics item.
Proof.
  intros H k v Hin.
  destruct (fetch_channel_topics_loop_In _ _ _ _ _ _ H Hin) as [[]|H0].
  exact H0.
Qed.

Lemma fetch_channel_topics_entries_one_page :
  exists batch items item,
    In batch (_chunked [py "C1"] 50)
    /\ channels_list_execute
         (one_page [py "https://en.wikipedia.org/wiki/Music"])
         (join (py ",") batch) = Ok items
    /\ In item (or_default items [])
    /\ item_id item = Some (py "C1")
    /\ [py "https://en.wikipedia.org/wiki/Music"] = item_topics item.
Proof.
  exact (fetch_channel_topics_entries
           (one_page [py "https://en.wikipedia.org/wiki/Music"])
           [py "C1"] _ eq_refl (py "C1")
           [py "https://en.wikipedia.org/wiki/Music"] (or_introl eq_refl)).
Defined.
